(** * PseudoLookup: the bound-value codec, the record resolver and the
      control's reconciliation state machine, embedded from the TypeScript
      sources (utils/dataUtils.ts, utils/webApiUtils.ts, index.ts, types).

    Strings are sequences of code points below 256 (the Latin-1 range), on
    which [toLowerCase] and [trim] act one character at a time exactly as
    the ECMAScript operations do. *)

From Stdlib Require Import ZArith NArith Ascii String List Lia.
From Stdlib Require Import DecimalString DecimalZ DecimalPos.
From stdpp Require Import base option list strings gmap.

Local Open Scope string_scope.

(** ** ECMAScript string primitives used by the sources *)
Module Js.

Definition code (c : ascii) : N := N_of_ascii c.

Definition between (lo hi : N) (c : ascii) : bool :=
  ((lo <=? code c)%N && (code c <=? hi)%N)%bool.

(** WhiteSpace and LineTerminator code points below 256: TAB, LF, VT, FF,
    CR, SP and NBSP. *)
Definition isWhiteSpace (c : ascii) : bool :=
  (between 9 13 c || (code c =? 32)%N || (code c =? 160)%N)%bool.

(** Upper-case letters below 256: A-Z and the Latin-1 capitals except the
    multiplication sign (215). *)
Definition isUpper (c : ascii) : bool :=
  (between 65 90 c || (between 192 222 c && negb (code c =? 215)%N))%bool.

Definition lowerChar (c : ascii) : ascii :=
  if isUpper c then ascii_of_N (code c + 32) else c.

(** [0-9a-fA-F] *)
Definition isHexDigit (c : ascii) : bool :=
  (between 48 57 c || between 97 102 c || between 65 70 c)%bool.

(** [{}] *)
Definition isBrace (c : ascii) : bool :=
  ((code c =? 123)%N || (code c =? 125)%N)%bool.

Fixpoint toLowerCase (s : string) : string :=
  match s with
  | EmptyString => EmptyString
  | String c r => String (lowerChar c) (toLowerCase r)
  end.

Fixpoint trimStart (s : string) : string :=
  match s with
  | EmptyString => EmptyString
  | String c r => if isWhiteSpace c then trimStart r else s
  end.

Fixpoint trimEnd (s : string) : string :=
  match s with
  | EmptyString => EmptyString
  | String c r =>
      match trimEnd r with
      | EmptyString => if isWhiteSpace c then EmptyString else String c EmptyString
      | t => String c t
      end
  end.

Definition trim (s : string) : string := trimEnd (trimStart s).

(** [s === ''] *)
Definition isEmpty (s : string) : bool :=
  match s with EmptyString => true | _ => false end.

(** [s.split(sep)] for a one-character separator: never an empty array. *)
Fixpoint split (sep : ascii) (s : string) : list string :=
  match s with
  | EmptyString => [EmptyString]
  | String c r =>
      if Ascii.eqb c sep then EmptyString :: split sep r
      else match split sep r with
           | h :: t => String c h :: t
           | [] => [String c EmptyString]
           end
  end.

(** [parts.join(sep)] *)
Fixpoint join (sep : string) (parts : list string) : string :=
  match parts with
  | [] => EmptyString
  | [p] => p
  | p :: rest => p +:+ sep +:+ join sep rest
  end.

(** [s.indexOf(c)]; [None] stands for -1. *)
Fixpoint indexOf (c : ascii) (s : string) : option nat :=
  match s with
  | EmptyString => None
  | String d r => if Ascii.eqb d c then Some 0 else S <$> indexOf c r
  end.

Fixpoint strTake (n : nat) (s : string) : string :=
  match n, s with
  | S n', String c r => String c (strTake n' r)
  | _, _ => EmptyString
  end.

Fixpoint strDrop (n : nat) (s : string) : string :=
  match n, s with
  | S n', String _ r => strDrop n' r
  | _, _ => s
  end.

(** [s.substring(a, b)] for [a <= b], and [s.substring(a)]. *)
Definition substring (a b : nat) (s : string) : string := strTake (b - a) (strDrop a s).
Definition substringFrom (a : nat) (s : string) : string := strDrop a s.

(** [s.replace(/[{}]/g, '')] *)
Fixpoint removeBraces (s : string) : string :=
  match s with
  | EmptyString => EmptyString
  | String c r => if isBrace c then removeBraces r else String c (removeBraces r)
  end.

(** [s.includes(needle)] *)
Fixpoint includes (needle s : string) : bool :=
  (String.prefix needle s ||
   match s with
   | EmptyString => false
   | String _ r => includes needle r
   end)%bool.

(** Every character of [s] satisfies [p]. *)
Fixpoint allChars (p : ascii -> bool) (s : string) : bool :=
  match s with
  | EmptyString => true
  | String c r => (p c && allChars p r)%bool
  end.

Definition notWhite (c : ascii) : bool := negb (isWhiteSpace c).

(** Template-literal rendering of a whole number. *)
Definition numberToString (z : Z) : string := NilZero.string_of_int (Z.to_int z).

(** *** Object literals used as maps

    An object written as a literal inherits from [Object.prototype].  Of the
    inherited names, lower-casing leaves two alone: under [constructor] a
    lookup finds the constructor function, under [__proto__] the prototype
    object, both truthy and neither a string. *)
Definition inheritedMembers : list string := ["constructor"; "__proto__"].

Definition isInherited (key : string) : bool := existsb (String.eqb key) inheritedMembers.

(** [String(member)] for the member found under an inherited name, as a
    template literal or a property key renders it: the constructor prints as
    a native function (in the layout of V8), the prototype object as any
    plain object. *)
Definition memberText (key : string) : string :=
  if String.eqb key "constructor" then "function Object() { [native code] }"
  else "[object Object]".

End Js.

(** ** types/index.ts *)
Module IParsedRecord.
Record t : Type := mk { id : string; table : string }.
End IParsedRecord.

(** [ITableIconCache = Record<string, string | null>], held in an object
    literal. *)
Module ITableIconCache.
Import Js.

(** What a lookup in the cache finds when it is not nullish: an address, or
    the member inherited under the name looked up. *)
Inductive Icon : Type :=
| IconUrl (url : string)
| IconMember (key : string).

(** The entries of its own (an address, or null), and whether the object
    still inherits from [Object.prototype]. *)
Record t : Type := mk {
  own : gmap string (option string);
  inherits : bool
}.

(** [{}] *)
Definition empty : t := mk ∅ true.


(** [cache[key] ?? undefined] *)
Definition lookup (key : string) (cache : t) : option Icon :=
  match own cache !! key with
  | Some value => IconUrl <$> value
  | None =>
      if (inherits cache && isInherited key)%bool then Some (IconMember key) else None
  end.

End ITableIconCache.

Module ILookupRecord.
Record t : Type := mk {
  id : string;
  table : string;
  name : string;
  iconUrl : option ITableIconCache.Icon;
  isLoading : option bool
}.
End ILookupRecord.

(** [ComponentFramework.LookupValue], as the picker returns it. *)
Module LookupValue.
Record t : Type := mk {
  id : string;
  name : option string;
  entityType : string
}.
End LookupValue.

(** ** utils/dataUtils.ts *)
Module Codec.
Import Js.

(** One [{n}] group of the identifier pattern: [n] hex digits. *)
Fixpoint hexRun (n : nat) (s : string) : option string :=
  match n with
  | 0 => Some s
  | S n' =>
      match s with
      | String c r => if isHexDigit c then hexRun n' r else None
      | EmptyString => None
      end
  end.

Definition hyphen (s : string) : option string :=
  match s with
  | String c r => if Ascii.eqb c "-"%char then Some r else None
  | EmptyString => None
  end.

(** The groups of the pattern, separated by hyphens and anchored at both
    ends. *)
Fixpoint matchGroups (groups : list nat) (s : string) : bool :=
  match groups with
  | [] => false
  | [n] => match hexRun n s with Some EmptyString => true | _ => false end
  | n :: rest =>
      match hexRun n s with
      | Some r => match hyphen r with Some r' => matchGroups rest r' | None => false end
      | None => false
      end
  end.

(** [/^[0-9a-fA-F]{8}-[0-9a-fA-F]{4}-[0-9a-fA-F]{4}-[0-9a-fA-F]{4}-[0-9a-fA-F]{12}$/.test(s)] *)
Definition guidRegex_test (s : string) : bool := matchGroups [8; 4; 4; 4; 12]%nat s.

Definition isValidGuid (value : string) : bool :=
  if isEmpty value then false
  else
    let cleanGuid := removeBraces value in
    guidRegex_test cleanGuid.

Definition normalizeGuid (guid : string) : string :=
  if isEmpty guid then EmptyString
  else toLowerCase (removeBraces guid).

(** One turn of the [for (const entry of entries)] loop of
    [parseBoundValue]; [records] is the array being pushed to. *)
Definition parseEntry (records : list IParsedRecord.t) (entry : string)
  : list IParsedRecord.t :=
  match indexOf ":"%char entry with
  | None => records
  | Some colonIndex =>
      let id := trim (substring 0 colonIndex entry) in
      let table := trim (substringFrom (colonIndex + 1) entry) in
      if (isValidGuid id && (0 <? String.length table)%nat)%bool
      then (records ++ [IParsedRecord.mk (normalizeGuid id) (toLowerCase table)])%list
      else records
  end.

Definition parseBoundValue (boundValue : string) : list IParsedRecord.t :=
  if (isEmpty boundValue || isEmpty (trim boundValue))%bool then []
  else
    let entries :=
      List.filter (fun entry => negb (isEmpty (trim entry))) (split ";"%char boundValue) in
    fold_left parseEntry entries [].

Definition serializeToBoundValue (records : list ILookupRecord.t) : string :=
  if (length records =? 0)%nat then EmptyString
  else
    join ";"
      (map (fun record =>
              normalizeGuid (ILookupRecord.id record) +:+ ":" +:+
              toLowerCase (ILookupRecord.table record))
           records).

Definition isRecordSelected (recordId : string) (selectedRecords : list ILookupRecord.t) : bool :=
  let normalizedId := normalizeGuid recordId in
  existsb (fun record => String.eqb (normalizeGuid (ILookupRecord.id record)) normalizedId)
          selectedRecords.

(** [tablesString.split(',').map(t => t.trim().toLowerCase()).filter(t => t.length > 0)] *)
Definition parseLookupTables (tablesString : string) : list string :=
  if (isEmpty tablesString || isEmpty (trim tablesString))%bool then []
  else
    List.filter (fun table => (0 <? String.length table)%nat)
      (map (fun table => toLowerCase (trim table)) (split ","%char tablesString)).

Definition removeRecordById (recordId : string) (selectedRecords : list ILookupRecord.t)
  : list ILookupRecord.t :=
  let normalizedId := normalizeGuid recordId in
  List.filter (fun record =>
                 negb (String.eqb (normalizeGuid (ILookupRecord.id record)) normalizedId))
              selectedRecords.

End Codec.


(** ** types/index.ts: the per-table display-name field table *)
Module Types.

Definition COMMON_PRIMARY_NAME_FIELDS : gmap string string :=
  list_to_map
    [("contact", "fullname"); ("account", "name"); ("lead", "fullname");
     ("opportunity", "name"); ("systemuser", "fullname"); ("team", "name");
     ("businessunit", "name"); ("task", "subject"); ("phonecall", "subject");
     ("email", "subject"); ("appointment", "subject"); ("letter", "subject");
     ("fax", "subject"); ("activitypointer", "subject"); ("annotation", "subject");
     ("incident", "title"); ("knowledgearticle", "title"); ("queue", "name");
     ("product", "name"); ("pricelevel", "name"); ("campaign", "name");
     ("list", "listname"); ("goal", "title"); ("transactioncurrency", "currencyname")].

End Types.

(** ** utils/webApiUtils.ts *)
Module Resolver.
Import Js Codec.

(** A value of [code] / [errorCode] that is not nullish: a whole number, a
    string, or a value of any other kind (a fraction, a boolean, an object),
    which equals none of the codes the sources compare with. *)
Inductive Code : Type :=
| CodeNum (n : Z)
| CodeStr (s : string)
| CodeOther.

(** A [message] that is not nullish: a string, or a value of another kind.
    Of the latter the sources ask two things: [message.includes(...)] for
    the words does not exist (in [retrieveRecord]) and
    [message.toLowerCase().includes(...)] for the word cancel (in
    [isUserCancelledError]).  [includes] and [cancelled] are what the value
    answers, and [None] where it has no such method, so that the call raises
    a TypeError: a number, a boolean and a plain object have neither method,
    an array has the first only. *)
Inductive Message : Type :=
| MsgString (s : string)
| MsgOther (includes cancelled : option bool).

(** A caught value.  [ErrObject] is an object with the members the catch
    blocks read, each absent when null or undefined; [ErrPrimitive] is
    anything that is not an object (or is null). *)
Inductive JsError : Type :=
| ErrObject (code errorCode : option Code) (message : option Message)
| ErrPrimitive.

(** The TypeError raised by a call of a method that is not there: an object
    without codes whose message names the callee (in the wording of V8). *)
Definition notAFunction (callee : string) : JsError :=
  ErrObject None None (Some (MsgString (callee +:+ " is not a function"))).

(** How an awaited call completes. *)
Inductive Completion (A : Type) : Type :=
| Return (a : A)
| Throw (error : JsError).
Arguments Return {A} a.
Arguments Throw {A} error.

(** A [console.error] line: the formatted text and the value logged with it. *)
Record LogEntry : Type := { logText : string; logValue : JsError }.

(** [context.webAPI.retrieveRecord(table, id, options)]: the entity as a map
    from field names to values, a falsy result, or a rejection. *)
Definition WebApi : Type := string -> string -> string -> Completion (option (gmap string string)).

(** What [getPrimaryNameField] returns: a field name, or the member that
    [COMMON_PRIMARY_NAME_FIELDS[lowerTable]] found under an inherited name. *)
Inductive PrimaryNameField : Type :=
| FieldName (name : string)
| InheritedField (key : string).

Definition getPrimaryNameField (tableName : string) : PrimaryNameField :=
  let lowerTable := toLowerCase tableName in
  match Types.COMMON_PRIMARY_NAME_FIELDS !! lowerTable with
  | Some field => if isEmpty field then FieldName "name" else FieldName field
  | None => if isInherited lowerTable then InheritedField lowerTable else FieldName "name"
  end.

(** The field as [retrieveRecord] uses it, in a template literal and as a
    property key: its text. *)
Definition fieldText (field : PrimaryNameField) : string :=
  match field with
  | FieldName name => name
  | InheritedField key => memberText key
  end.

Definition isWebApiError (error : JsError) : bool :=
  match error with ErrObject _ _ _ => true | ErrPrimitive => false end.

Definition codeIs (c : option Code) (expected : Code) : bool :=
  match c, expected with
  | Some (CodeNum a), CodeNum b => (a =? b)%Z
  | Some (CodeStr a), CodeStr b => String.eqb a b
  | _, _ => false
  end.

(** [errorMessage.includes('does not exist')], where [errorMessage] is
    [error.message ?? '']. *)
Definition messageIncludes (message : option Message) : Completion bool :=
  match message with
  | None => Return false
  | Some (MsgString errorMessage) => Return (includes "does not exist" errorMessage)
  | Some (MsgOther (Some answer) _) => Return answer
  | Some (MsgOther None _) => Throw (notAFunction "errorMessage.includes")
  end.

(** The test of the [catch] block of [retrieveRecord], for the not-found and
    forbidden classes.  The disjunction is evaluated from the left: the
    message is read only when the code is neither 404 nor 0x80040217. *)
Definition isSilentError (error : JsError) : Completion bool :=
  match error with
  | ErrObject code errorCode message =>
      let errorCode := match code with Some c => Some c | None => errorCode end in
      if (codeIs errorCode (CodeNum 404) || codeIs errorCode (CodeStr "0x80040217"))%bool
      then Return true
      else
        match messageIncludes message with
        | Return found =>
            Return (found || codeIs errorCode (CodeNum 403)
                    || codeIs errorCode (CodeStr "0x80040220"))%bool
        | Throw raised => Throw raised
        end
  | ErrPrimitive => Return false
  end.

Definition retrieveErrorText (recordId tableName : string) : string :=
  "[PseudoLookup] Error retrieving record " +:+ recordId +:+ " from " +:+ tableName +:+ ":".

(** [retrieveRecord]: the console lines it writes and how it completes.  A
    TypeError raised inside the [catch] block leaves the function. *)
Definition retrieveRecord (webAPI : WebApi) (tableName recordId : string)
  : list LogEntry * Completion (option ILookupRecord.t) :=
  let primaryNameField := getPrimaryNameField tableName in
  let normalizedId := normalizeGuid recordId in
  match webAPI tableName normalizedId ("?$select=" +:+ fieldText primaryNameField) with
  | Return (Some resultObj) =>
      let name :=
        default "Unnamed Record"
          (resultObj !! fieldText primaryNameField ∪ resultObj !! "name"
           ∪ resultObj !! "fullname" ∪ resultObj !! "subject" ∪ resultObj !! "title") in
      ([], Return (Some (ILookupRecord.mk normalizedId (toLowerCase tableName) name None None)))
  | Return None => ([], Return None)
  | Throw error =>
      let logged := ([Build_LogEntry (retrieveErrorText recordId tableName) error], Return None) in
      if isWebApiError error then
        match isSilentError error with
        | Return true => ([], Return None)
        | Return false => logged
        | Throw raised => ([], Throw raised)
        end
      else logged
  end.

Record IRecordRetrievalResult : Type := {
  validRecords : list ILookupRecord.t;
  deletedRecordIds : list string;
  hasDeletedRecords : bool
}.

(** [Promise.all]: the values in order, or the first rejection. *)
Fixpoint promiseAll {A : Type} (settled : list (Completion A)) : Completion (list A) :=
  match settled with
  | [] => Return []
  | Return a :: rest =>
      match promiseAll rest with
      | Return l => Return (a :: l)
      | Throw e => Throw e
      end
  | Throw e :: _ => Throw e
  end.

(** One turn of the partition loop of [retrieveAllRecords]. *)
Definition partitionStep (acc : list ILookupRecord.t * list string)
    (item : IParsedRecord.t * option ILookupRecord.t) : list ILookupRecord.t * list string :=
  match snd item with
  | Some record => ((fst acc ++ [record])%list, snd acc)
  | None => (fst acc, (snd acc ++ [IParsedRecord.id (fst item)])%list)
  end.

Definition retrieveAllRecords (webAPI : WebApi) (parsedRecords : list IParsedRecord.t)
  : list LogEntry * Completion IRecordRetrievalResult :=
  if (length parsedRecords =? 0)%nat
  then ([], Return (Build_IRecordRetrievalResult [] [] false))
  else
    let retrievals :=
      map (fun parsed =>
             (parsed, retrieveRecord webAPI (IParsedRecord.table parsed) (IParsedRecord.id parsed)))
          parsedRecords in
    let logs := concat (map (fun r => fst (snd r)) retrievals) in
    let settled :=
      map (fun r => match snd (snd r) with
                    | Return record => Return (fst r, record)
                    | Throw e => Throw e
                    end) retrievals in
    match promiseAll settled with
    | Throw e => (logs, Throw e)
    | Return results =>
        let parts := fold_left partitionStep results ([], []) in
        (logs, Return (Build_IRecordRetrievalResult (fst parts) (snd parts)
                         (0 <? length (snd parts))%nat))
    end.

(** [isUserCancelledError], the same in webApiUtils.ts and in index.ts.
    The message is read only when the code is not one of the two
    cancellation codes; [err.message?.toLowerCase()] raises when the message
    is not nullish and has no such method. *)
Definition isUserCancelledError (error : JsError) : Completion bool :=
  match error with
  | ErrObject code _ message =>
      if (codeIs code (CodeNum 1) || codeIs code (CodeNum (-2147020463)))%bool
      then Return true
      else
        match message with
        | Some (MsgString m) => Return (includes "cancel" (toLowerCase m))
        | Some (MsgOther _ (Some answer)) => Return answer
        | Some (MsgOther _ None) => Throw (notAFunction "err.message?.toLowerCase")
        | None => Return false
        end
  | ErrPrimitive => Return false
  end.

(** [openLookupDialog] on the outcome of [context.utils.lookupObjects].  What
    the cancellation test raises inside the [catch] block leaves the
    function in place of the picker's own rejection. *)
Definition openLookupDialog (lookupObjects : Completion (option (list LookupValue.t)))
  : Completion (list LookupValue.t) :=
  match lookupObjects with
  | Return result => Return (default [] result)
  | Throw error =>
      match isUserCancelledError error with
      | Return true => Return []
      | Return false => Throw error
      | Throw raised => Throw raised
      end
  end.

End Resolver.

(** ** index.ts: the control *)
Module Control.
Import Js Codec Resolver.

(** The parameters of [ComponentFramework.Context<IInputs>] the control's
    state depends on; each is the [raw] value, absent when null/undefined. *)
Record Context : Type := {
  boundField : option string;
  lookupTables : option string;
  allowMultiSelect : option bool;
  maxSelections : option Z
}.

(** The fields of the [PseudoLookup] instance, and a count of the
    [notifyOutputChanged()] calls made to the host. *)
Record State : Type := mkState {
  selectedRecords : list ILookupRecord.t;
  errorMessage : option string;
  boundFieldValue : string;
  recordNamesValue : string;
  isInitialized : bool;
  lastBoundValue : option string;
  isLoadingInProgress : bool;
  tableIconCache : ITableIconCache.t;
  iconCacheLoaded : bool;
  stateVersion : Z;
  context : Context;
  outputChanges : nat
}.

Definition emptyContext : Context := Build_Context None None None None.

(** The instance as its field initialisers leave it. *)
Definition initial : State :=
  mkState [] None "" "" false None false ITableIconCache.empty false 0 emptyContext 0.

Definition set_selectedRecords (v : list ILookupRecord.t) (s : State) : State :=
  mkState v (errorMessage s) (boundFieldValue s) (recordNamesValue s) (isInitialized s)
    (lastBoundValue s) (isLoadingInProgress s) (tableIconCache s) (iconCacheLoaded s)
    (stateVersion s) (context s) (outputChanges s).
Definition set_errorMessage (v : option string) (s : State) : State :=
  mkState (selectedRecords s) v (boundFieldValue s) (recordNamesValue s) (isInitialized s)
    (lastBoundValue s) (isLoadingInProgress s) (tableIconCache s) (iconCacheLoaded s)
    (stateVersion s) (context s) (outputChanges s).
Definition set_boundFieldValue (v : string) (s : State) : State :=
  mkState (selectedRecords s) (errorMessage s) v (recordNamesValue s) (isInitialized s)
    (lastBoundValue s) (isLoadingInProgress s) (tableIconCache s) (iconCacheLoaded s)
    (stateVersion s) (context s) (outputChanges s).
Definition set_recordNamesValue (v : string) (s : State) : State :=
  mkState (selectedRecords s) (errorMessage s) (boundFieldValue s) v (isInitialized s)
    (lastBoundValue s) (isLoadingInProgress s) (tableIconCache s) (iconCacheLoaded s)
    (stateVersion s) (context s) (outputChanges s).
Definition set_isInitialized (v : bool) (s : State) : State :=
  mkState (selectedRecords s) (errorMessage s) (boundFieldValue s) (recordNamesValue s) v
    (lastBoundValue s) (isLoadingInProgress s) (tableIconCache s) (iconCacheLoaded s)
    (stateVersion s) (context s) (outputChanges s).
Definition set_lastBoundValue (v : option string) (s : State) : State :=
  mkState (selectedRecords s) (errorMessage s) (boundFieldValue s) (recordNamesValue s)
    (isInitialized s) v (isLoadingInProgress s) (tableIconCache s) (iconCacheLoaded s)
    (stateVersion s) (context s) (outputChanges s).
Definition set_isLoadingInProgress (v : bool) (s : State) : State :=
  mkState (selectedRecords s) (errorMessage s) (boundFieldValue s) (recordNamesValue s)
    (isInitialized s) (lastBoundValue s) v (tableIconCache s) (iconCacheLoaded s)
    (stateVersion s) (context s) (outputChanges s).
Definition set_tableIconCache (v : ITableIconCache.t) (s : State) : State :=
  mkState (selectedRecords s) (errorMessage s) (boundFieldValue s) (recordNamesValue s)
    (isInitialized s) (lastBoundValue s) (isLoadingInProgress s) v (iconCacheLoaded s)
    (stateVersion s) (context s) (outputChanges s).
Definition set_iconCacheLoaded (v : bool) (s : State) : State :=
  mkState (selectedRecords s) (errorMessage s) (boundFieldValue s) (recordNamesValue s)
    (isInitialized s) (lastBoundValue s) (isLoadingInProgress s) (tableIconCache s) v
    (stateVersion s) (context s) (outputChanges s).
Definition set_stateVersion (v : Z) (s : State) : State :=
  mkState (selectedRecords s) (errorMessage s) (boundFieldValue s) (recordNamesValue s)
    (isInitialized s) (lastBoundValue s) (isLoadingInProgress s) (tableIconCache s)
    (iconCacheLoaded s) v (context s) (outputChanges s).
Definition set_context (v : Context) (s : State) : State :=
  mkState (selectedRecords s) (errorMessage s) (boundFieldValue s) (recordNamesValue s)
    (isInitialized s) (lastBoundValue s) (isLoadingInProgress s) (tableIconCache s)
    (iconCacheLoaded s) (stateVersion s) v (outputChanges s).

(** [this.notifyOutputChanged()] *)
Definition notifyOutputChanged (s : State) : State :=
  mkState (selectedRecords s) (errorMessage s) (boundFieldValue s) (recordNamesValue s)
    (isInitialized s) (lastBoundValue s) (isLoadingInProgress s) (tableIconCache s)
    (iconCacheLoaded s) (stateVersion s) (context s) (S (outputChanges s)).

(** Sequencing of assignments: [s ;> f ;> g] runs [f], then [g]. *)
Notation "s ;> f" := (f s) (at level 51, left associativity, only parsing).

(** [this.stateVersion++]; the updater callback, when registered, is then
    handed the new version and touches no field. *)
Definition triggerRerender (s : State) : State :=
  set_stateVersion (stateVersion s + 1) s.

(** [!r.isLoading] *)
Definition notLoading (r : ILookupRecord.t) : bool :=
  negb (default false (ILookupRecord.isLoading r)).

Definition serializeRecordNames (s : State) : string :=
  if (length (selectedRecords s) =? 0)%nat then ""
  else join ";" (map ILookupRecord.name (List.filter notLoading (selectedRecords s))).

(** What [getOutputs()] reports as [selectionCount]. *)
Definition selectionCount (s : State) : nat :=
  length (List.filter notLoading (selectedRecords s)).

(** [context.parameters.boundField?.raw ?? ''] *)
Definition boundValueOf (c : Context) : string := default "" (boundField c).

(** [a !== this.lastBoundValue] negated: strict equality with a [string | null]. *)
Definition sameAsLast (a : string) (last : option string) : bool :=
  match last with
  | Some b => String.eqb a b
  | None => false
  end.

(** A [loadInitialData] suspended at [await retrieveAllRecords(...)]: the
    value it was started for and the references it asked for. *)
Record PendingLoad : Type := {
  loadingValue : string;
  parsedRecords : list IParsedRecord.t
}.

Definition placeholder (record : IParsedRecord.t) : ILookupRecord.t :=
  ILookupRecord.mk (IParsedRecord.id record) (IParsedRecord.table record)
    "Loading..." None (Some true).

(** The [finally] block of [loadInitialData]. *)
Definition loadFinally (s : State) : State :=
  s ;> set_isLoadingInProgress false ;> triggerRerender.

(** [loadInitialData] up to its first suspension (or to completion when it
    returns before awaiting). *)
Definition loadInitialData (s : State) (ctx : Context) : State * option PendingLoad :=
  let boundValue := boundValueOf ctx in
  if isLoadingInProgress s then (s, None)
  else if (isEmpty boundValue || isEmpty (trim boundValue))%bool then
    (s ;> set_selectedRecords [] ;> set_recordNamesValue "" ;> set_boundFieldValue ""
       ;> set_isInitialized true ;> set_lastBoundValue (Some "") ;> triggerRerender,
     None)
  else if (sameAsLast boundValue (lastBoundValue s) && isInitialized s)%bool then (s, None)
  else
    let loadingValue := boundValue in
    let s := s ;> set_lastBoundValue (Some boundValue) ;> set_isLoadingInProgress true
               ;> set_errorMessage None in
    let parsedRecords := parseBoundValue boundValue in
    if (length parsedRecords =? 0)%nat then
      (s ;> set_selectedRecords [] ;> set_recordNamesValue "" ;> set_boundFieldValue ""
         ;> set_isLoadingInProgress false ;> set_isInitialized true ;> triggerRerender
         ;> loadFinally,
       None)
    else
      (s ;> set_selectedRecords (map placeholder parsedRecords) ;> set_isInitialized true
         ;> triggerRerender,
       Some (Build_PendingLoad loadingValue parsedRecords)).

(** [loadInitialData] from the point where [retrieveAllRecords] settles. *)
Definition loadInitialData_resume (s : State) (p : PendingLoad)
    (outcome : Completion IRecordRetrievalResult) : State * option PendingLoad :=
  match outcome with
  | Return result =>
      let currentBoundValue := boundValueOf (context s) in
      if negb (String.eqb currentBoundValue (loadingValue p)) then
        let s := s ;> set_isLoadingInProgress false in
        let restarted := loadInitialData s (context s) in
        (loadFinally (fst restarted), snd restarted)
      else
        let s := s ;> set_selectedRecords (validRecords result) in
        let s := s ;> set_recordNamesValue (serializeRecordNames s) in
        let s :=
          if hasDeletedRecords result then
            let s := s ;> set_boundFieldValue (serializeToBoundValue (selectedRecords s)) in
            s ;> set_lastBoundValue (Some (boundFieldValue s)) ;> notifyOutputChanged
          else s in
        (loadFinally s, None)
  | Throw _ =>
      (s ;> set_errorMessage (Some "Error loading records. Please refresh.")
         ;> set_selectedRecords [] ;> set_recordNamesValue "" ;> loadFinally,
       None)
  end.

(** [loadTableIcons]: whether it goes on to await the icons. *)
Definition loadTableIcons (s : State) (ctx : Context) : bool :=
  if iconCacheLoaded s then false
  else negb (length (parseLookupTables (default "" (lookupTables ctx))) =? 0)%nat.

Definition loadTableIcons_resume (s : State)
    (outcome : Completion ITableIconCache.t) : State :=
  match outcome with
  | Return cache => s ;> set_tableIconCache cache ;> set_iconCacheLoaded true ;> triggerRerender
  | Throw _ => s ;> set_iconCacheLoaded true
  end.

(** [updateView]: the state it leaves, the load it may have suspended and
    whether an icon load was started. *)
Definition updateView (s : State) (ctx : Context) : State * option PendingLoad * bool :=
  let s := s ;> set_context ctx in
  let currentBoundValue := boundValueOf ctx in
  let valueChanged := negb (sameAsLast currentBoundValue (lastBoundValue s)) in
  let loaded :=
    if (negb (isInitialized s) || (valueChanged && negb (isLoadingInProgress s)))%bool
    then loadInitialData s ctx
    else (s, None) in
  let icons :=
    if negb (iconCacheLoaded (fst loaded)) then loadTableIcons (fst loaded) ctx else false in
  (loaded, icons).

(** [maxSelections && maxSelections > 0] *)
Definition positiveMax (m : option Z) : option Z :=
  match m with
  | Some n => if (negb (n =? 0) && (0 <? n))%Z%bool then Some n else None
  | None => None
  end.

Definition maxReachedText (maxSelections : Z) : string :=
  "Maximum of " +:+ numberToString maxSelections +:+ " selection"
  +:+ (if (1 <? maxSelections)%Z then "s" else "") +:+ " reached".

Definition tooManyText (maxSelections excessCount : Z) : string :=
  "Too many selections. Only the first " +:+ numberToString maxSelections +:+ " record"
  +:+ (if (1 <? maxSelections)%Z then "s were" else " was") +:+ " retained ("
  +:+ numberToString excessCount +:+ " removed).".

Definition toRecord (cache : ITableIconCache.t) (result : LookupValue.t)
  : ILookupRecord.t :=
  ILookupRecord.mk (normalizeGuid (LookupValue.id result)) (toLowerCase (LookupValue.entityType result))
    (default "Unnamed Record" (LookupValue.name result))
    (ITableIconCache.lookup (toLowerCase (LookupValue.entityType result)) cache) None.

Definition processLookupResults (s : State) (results : list LookupValue.t)
    (allowMultiSelect : bool) : State :=
  let newRecords := map (toRecord (tableIconCache s)) results in
  let s :=
    if allowMultiSelect then
      let existingIds : gset string :=
        list_to_set (map (fun r => normalizeGuid (ILookupRecord.id r)) (selectedRecords s)) in
      let uniqueNewRecords :=
        List.filter (fun r => negb (bool_decide (normalizeGuid (ILookupRecord.id r) ∈ existingIds)))
                    newRecords in
      let combinedRecords := (selectedRecords s ++ uniqueNewRecords)%list in
      match positiveMax (maxSelections (context s)) with
      | Some maxSelections =>
          if (maxSelections <? Z.of_nat (length combinedRecords))%Z then
            let excessCount := (Z.of_nat (length combinedRecords) - maxSelections)%Z in
            s ;> set_errorMessage (Some (tooManyText maxSelections excessCount))
              ;> set_selectedRecords (take (Z.to_nat maxSelections) combinedRecords)
          else s ;> set_selectedRecords combinedRecords
      | None => s ;> set_selectedRecords combinedRecords
      end
    else s ;> set_selectedRecords (take 1 newRecords) in
  let s := s ;> set_boundFieldValue (serializeToBoundValue (selectedRecords s)) in
  let s := s ;> set_recordNamesValue (serializeRecordNames s) in
  s ;> set_lastBoundValue (Some (boundFieldValue s)) ;> notifyOutputChanged ;> triggerRerender.

Definition handleRemoveRecord (s : State) (recordId : string) : State :=
  let s := s ;> set_selectedRecords (removeRecordById recordId (selectedRecords s)) in
  let s := s ;> set_boundFieldValue (serializeToBoundValue (selectedRecords s)) in
  let s := s ;> set_recordNamesValue (serializeRecordNames s) in
  s ;> set_lastBoundValue (Some (boundFieldValue s)) ;> set_errorMessage None
    ;> notifyOutputChanged ;> triggerRerender.

(** [handleLookupClick] up to [await openLookupDialog(...)]: the state and,
    when the dialog is opened, the [allowMultiSelect] it was opened with. *)
Definition handleLookupClick (s : State) : State * option bool :=
  if isLoadingInProgress s then (s, None)
  else
    let allowMultiSelect := default false (allowMultiSelect (context s)) in
    let atMax :=
      match positiveMax (maxSelections (context s)) with
      | Some maxSelections =>
          if (allowMultiSelect && (maxSelections <=? Z.of_nat (length (selectedRecords s)))%Z)%bool
          then Some maxSelections else None
      | None => None
      end in
    match atMax with
    | Some maxSelections =>
        (s ;> set_errorMessage (Some (maxReachedText maxSelections)) ;> triggerRerender, None)
    | None =>
        let lookupTables := parseLookupTables (default "" (lookupTables (context s))) in
        if (length lookupTables =? 0)%nat then
          (s ;> set_errorMessage (Some "No lookup tables configured") ;> triggerRerender, None)
        else (s, Some allowMultiSelect)
    end.

(** [handleLookupClick] from the point where [openLookupDialog] settles.
    Were the cancellation test to raise inside the [catch] block, the call
    would end there, the state as it is. *)
Definition handleLookupClick_resume (s : State) (allowMultiSelect : bool)
    (outcome : Completion (list LookupValue.t)) : State :=
  match outcome with
  | Return results =>
      if (0 <? length results)%nat then processLookupResults s results allowMultiSelect else s
  | Throw error =>
      match isUserCancelledError error with
      | Return cancelled =>
          if negb cancelled then
            s ;> set_errorMessage (Some "Error opening lookup dialog") ;> triggerRerender
          else s
      | Throw _ => s
      end
  end.

(** [destroy()]; [context] and [stateVersion] are left as they are. *)
Definition destroy (s : State) : State :=
  mkState [] None "" "" false None false ITableIconCache.empty false (stateVersion s)
    (context s) (outputChanges s).

(** *** The control with its suspended calls *)

Record World : Type := {
  control : State;
  loads : list PendingLoad;     (* loadInitialData calls awaiting the store *)
  dialogs : list bool;          (* handleLookupClick calls awaiting the picker *)
  iconLoads : nat               (* loadTableIcons calls awaiting the metadata *)
}.

Definition start : World := Build_World initial [] [] 0.

Inductive Event : Type :=
| UpdateView (ctx : Context)
| LoadSettles (i : nat) (webAPI : WebApi)
| IconsSettle (outcome : Completion ITableIconCache.t)
| LookupClick
| DialogSettles (i : nat) (lookupObjects : Completion (option (list LookupValue.t)))
| RemoveRecord (recordId : string)
| Destroy.

Definition step (e : Event) (w : World) : World :=
  match e with
  | UpdateView ctx =>
      let '(s, started, icons) := updateView (control w) ctx in
      Build_World s (loads w ++ option_list started) (dialogs w)
        (if icons then S (iconLoads w) else iconLoads w)
  | LoadSettles i webAPI =>
      match loads w !! i with
      | Some p =>
          let outcome := snd (retrieveAllRecords webAPI (parsedRecords p)) in
          let '(s, restarted) := loadInitialData_resume (control w) p outcome in
          Build_World s (delete i (loads w) ++ option_list restarted) (dialogs w) (iconLoads w)
      | None => w
      end
  | IconsSettle outcome =>
      match iconLoads w with
      | S n => Build_World (loadTableIcons_resume (control w) outcome) (loads w) (dialogs w) n
      | O => w
      end
  | LookupClick =>
      let '(s, opened) := handleLookupClick (control w) in
      Build_World s (loads w) (dialogs w ++ option_list opened) (iconLoads w)
  | DialogSettles i lookupObjects =>
      match dialogs w !! i with
      | Some allowMultiSelect =>
          Build_World
            (handleLookupClick_resume (control w) allowMultiSelect (openLookupDialog lookupObjects))
            (loads w) (delete i (dialogs w)) (iconLoads w)
      | None => w
      end
  | RemoveRecord recordId =>
      Build_World (handleRemoveRecord (control w) recordId) (loads w) (dialogs w) (iconLoads w)
  | Destroy => Build_World (destroy (control w)) (loads w) (dialogs w) (iconLoads w)
  end.

Definition run (events : list Event) (w : World) : World :=
  fold_left (fun w e => step e w) events w.

(** The states the control can be in: those a sequence of events leads to
    from the freshly constructed instance. *)
Definition reachable (w : World) : Prop := exists events, w = run events start.

(** Let every suspended load settle, oldest first, against [webAPI]. *)
Fixpoint settle (fuel : nat) (webAPI : WebApi) (w : World) : World :=
  match fuel with
  | O => w
  | S fuel' =>
      match loads w with
      | [] => w
      | _ :: _ => settle fuel' webAPI (step (LoadSettles 0 webAPI) w)
      end
  end.

End Control.

(** ** Reference definitions the code is compared with *)
Module Spec.
Import Js Codec.

(** The characters an accepted identifier is made of. *)
Definition guidChar (c : ascii) : bool :=
  (isHexDigit c || Ascii.eqb c "-" || isBrace c)%bool.

(** A normalized identifier: the 8-4-4-4-12 pattern in lower case. *)
Definition isCanonicalGuid (g : string) : bool :=
  (guidRegex_test g && String.eqb (toLowerCase g) g)%bool.

(** A segment split at its first colon into (identifier, type), each with
    the surrounding white space trimmed. *)
Definition splitSegment (segment : string) : option (string * string) :=
  match indexOf ":" segment with
  | Some i => Some (trim (substring 0 i segment), trim (substringFrom (i + 1) segment))
  | None => None
  end.

(** The entry a segment contributes, if any. *)
Definition parseSegment (segment : string) : option IParsedRecord.t :=
  match splitSegment segment with
  | Some (identifier, type) =>
      if (isValidGuid identifier && negb (isEmpty type))%bool
      then Some (IParsedRecord.mk (normalizeGuid identifier) (toLowerCase type))
      else None
  | None => None
  end.

(** parse: split on the semicolon, discard empty segments, keep what each
    remaining segment contributes, in order. *)
Definition parse (raw : string) : list IParsedRecord.t :=
  omap parseSegment (List.filter (fun segment => negb (isEmpty segment)) (split ";" raw)).

(** The parse as the specification words it, without any trimming: the
    identifier is the text before the first colon, the type the text after
    it. *)
Definition parseSegmentAsWritten (segment : string) : option IParsedRecord.t :=
  match indexOf ":" segment with
  | Some i =>
      let identifier := substring 0 i segment in
      let type := substringFrom (i + 1) segment in
      if (isValidGuid identifier && negb (isEmpty type))%bool
      then Some (IParsedRecord.mk (normalizeGuid identifier) (toLowerCase type))
      else None
  | None => None
  end.

Definition parseAsWritten (raw : string) : list IParsedRecord.t :=
  omap parseSegmentAsWritten
       (List.filter (fun segment => negb (isEmpty segment)) (split ";" raw)).

(** Two identifiers are the same once braces are stripped and letter case
    is ignored, on both sides. *)
Definition sameIdentifier (a b : string) : bool :=
  String.eqb (toLowerCase (removeBraces a)) (toLowerCase (removeBraces b)).

(** The text of one entry of a bound value. *)
Definition segmentText (identifier type : string) : string :=
  identifier +:+ ":" +:+ type.

(** The canonical text an entry round-trips to. *)
Definition canonicalText (identifier type : string) : string :=
  normalizeGuid identifier +:+ ":" +:+ toLowerCase (trim type).

(** What [retrieveRecord] hands back for a reference. *)
Definition recordOf (webAPI : Resolver.WebApi) (parsed : IParsedRecord.t)
  : option ILookupRecord.t :=
  match snd (Resolver.retrieveRecord webAPI (IParsedRecord.table parsed)
               (IParsedRecord.id parsed)) with
  | Resolver.Return record => record
  | Resolver.Throw _ => None
  end.

(** What the lookup of a reference raises, if it does. *)
Definition raised (webAPI : Resolver.WebApi) (parsed : IParsedRecord.t)
  : option Resolver.JsError :=
  match snd (Resolver.retrieveRecord webAPI (IParsedRecord.table parsed)
               (IParsedRecord.id parsed)) with
  | Resolver.Return _ => None
  | Resolver.Throw error => Some error
  end.

(** The first of the references, in order, whose lookup raises. *)
Fixpoint firstRaised (webAPI : Resolver.WebApi) (refs : list IParsedRecord.t)
  : option Resolver.JsError :=
  match refs with
  | [] => None
  | parsed :: rest =>
      match raised webAPI parsed with
      | Some error => Some error
      | None => firstRaised webAPI rest
      end
  end.

(** The references whose lookup found nothing. *)
Definition notFound (webAPI : Resolver.WebApi) (refs : list IParsedRecord.t)
  : list IParsedRecord.t :=
  List.filter (fun p => negb (bool_decide (is_Some (recordOf webAPI p)))) refs.

(** *** The ways a rejected lookup ends

    The classes of the rejections of the record store, as the amended
    wording of the resolver's contract has them. *)
Inductive FailureClass : Type :=
| NotFoundOrForbidden   (* silent: null, nothing logged *)
| OtherFailure          (* logged, then null *)
| IllTypedMessage.      (* the catch block itself raises *)

(** The code the classes go by: [code], or [errorCode] when [code] is
    absent. *)
Definition effectiveCode (code errorCode : option Resolver.Code) : option Resolver.Code :=
  match code with
  | Some c => Some c
  | None => errorCode
  end.

Definition codeAmong (c : option Resolver.Code) (numbers : list Z) (texts : list string) : bool :=
  match c with
  | Some (Resolver.CodeNum n) => bool_decide (n ∈ numbers)
  | Some (Resolver.CodeStr t) => bool_decide (t ∈ texts)
  | _ => false
  end.

Definition failureClass (error : Resolver.JsError) : FailureClass :=
  match error with
  | Resolver.ErrPrimitive => OtherFailure
  | Resolver.ErrObject code errorCode message =>
      let c := effectiveCode code errorCode in
      if codeAmong c [404%Z] ["0x80040217"] then NotFoundOrForbidden
      else
        match message with
        | Some (Resolver.MsgOther None _) => IllTypedMessage
        | Some (Resolver.MsgOther (Some true) _) => NotFoundOrForbidden
        | Some (Resolver.MsgString text) =>
            if (includes "does not exist" text || codeAmong c [403%Z] ["0x80040220"])%bool
            then NotFoundOrForbidden else OtherFailure
        | _ =>
            if codeAmong c [403%Z] ["0x80040220"] then NotFoundOrForbidden else OtherFailure
        end
  end.

(** The entries a completed resolution of the bound value [raw] yields
    against the store [webAPI] (none when the resolution fails). *)
Definition resolution (webAPI : Resolver.WebApi) (raw : string) : list ILookupRecord.t :=
  match snd (Resolver.retrieveAllRecords webAPI (parseBoundValue raw)) with
  | Resolver.Return result => Resolver.validRecords result
  | Resolver.Throw _ => []
  end.

(** Normalized identifiers of entries and of parsed references. *)
Definition entryIds (entries : list ILookupRecord.t) : list string :=
  map (fun r => normalizeGuid (ILookupRecord.id r)) entries.


(** The normalized identifiers of the non-pending entries of the selection. *)
Definition selectionIds (s : Control.State) : list string :=
  entryIds (List.filter Control.notLoading (Control.selectedRecords s)).



End Spec.

(** ** utils/dataUtils.ts: the functions around the codec *)
Module CodecRest.
Import Js Codec.

(** The double-quote character, and a string holding just it. *)
Definition dquoteChar : ascii := "034"%char.
Definition dquote : string := String dquoteChar EmptyString.

Definition getPrimaryKeyField (tableName : string) : string :=
  toLowerCase tableName +:+ "id".

Definition irregularPlurals : gmap string string :=
  list_to_map
    [("opportunity", "opportunities"); ("activity", "activities"); ("entity", "entities");
     ("category", "categories"); ("currency", "currencies"); ("territory", "territories");
     ("query", "queries"); ("policy", "policies")].

(** The last two characters of a string: (second to last, last). *)
Fixpoint lastTwo (s : string) : option ascii * option ascii :=
  match s with
  | EmptyString => (None, None)
  | String c r =>
      match r with
      | EmptyString => (None, Some c)
      | String _ _ =>
          match lastTwo r with
          | (None, l) => (Some c, l)
          | p => p
          end
      end
  end.

Definition charIn (set : string) (c : ascii) : bool :=
  match indexOf c set with Some _ => true | None => false end.

(** [/[sxz]$/.test(s) || /[cs]h$/.test(s)] *)
Definition endsInSibilant (s : string) : bool :=
  match lastTwo s with
  | (before, Some l) =>
      (charIn "sxz" l
       || (Ascii.eqb l "h" && match before with Some b => charIn "cs" b | None => false end))%bool
  | (_, None) => false
  end.

(** [/[^aeiou]y$/.test(s)] *)
Definition endsInConsonantY (s : string) : bool :=
  match lastTwo s with
  | (Some b, Some l) => (Ascii.eqb l "y" && negb (charIn "aeiou" b))%bool
  | _ => false
  end.

(** [s.slice(0, -1)] *)
Fixpoint dropLast (s : string) : string :=
  match s with
  | EmptyString => EmptyString
  | String c r =>
      match r with
      | EmptyString => EmptyString
      | String _ _ => String c (dropLast r)
      end
  end.

(** What [getPluralTableName] returns: a name, or the inherited member that
    [irregularPlurals[lowerTable]] found, given by its key. *)
Inductive PluralResult : Type :=
| PluralName (name : string)
| InheritedMember (key : string).

Definition getPluralTableName (tableName : string) : PluralResult :=
  let lowerTable := toLowerCase tableName in
  let regular :=
    if endsInSibilant lowerTable then lowerTable +:+ "es"
    else if endsInConsonantY lowerTable then dropLast lowerTable +:+ "ies"
    else lowerTable +:+ "s" in
  match irregularPlurals !! lowerTable with
  | Some plural => PluralName (if isEmpty plural then regular else plural)
  | None => if isInherited lowerTable then InheritedMember lowerTable else PluralName regular
  end.

Record ILookupFilter : Type := {
  filterXml : string;
  entityLogicalName : string
}.

(** [<value>{id}</value>] *)
Definition valueElement (id : string) : string := "<value>{" +:+ id +:+ "}</value>".

Definition generateExclusionFilter (tableName : string)
    (selectedRecords : list ILookupRecord.t) : option ILookupFilter :=
  let selectedIdsForTable :=
    map (fun record => normalizeGuid (ILookupRecord.id record))
        (List.filter
           (fun record =>
              String.eqb (toLowerCase (ILookupRecord.table record)) (toLowerCase tableName))
           selectedRecords) in
  if (length selectedIdsForTable =? 0)%nat then None
  else
    let primaryKeyField := getPrimaryKeyField tableName in
    let valueElements := join "" (map valueElement selectedIdsForTable) in
    let filterXml :=
      "<filter type=" +:+ dquote +:+ "and" +:+ dquote +:+ "><condition attribute=" +:+ dquote
      +:+ primaryKeyField +:+ dquote +:+ " operator=" +:+ dquote +:+ "not-in" +:+ dquote
      +:+ ">" +:+ valueElements +:+ "</condition></filter>" in
    Some (Build_ILookupFilter filterXml (toLowerCase tableName)).

(** One turn of the loop of [generateAllExclusionFilters]. *)
Definition pushFilter (selectedRecords : list ILookupRecord.t)
    (filters : list ILookupFilter) (tableName : string) : list ILookupFilter :=
  match generateExclusionFilter tableName selectedRecords with
  | Some filter => (filters ++ [filter])%list
  | None => filters
  end.

Definition generateAllExclusionFilters (lookupTables : list string)
    (selectedRecords : list ILookupRecord.t) : list ILookupFilter :=
  fold_left (pushFilter selectedRecords) lookupTables [].

(** [s.replace(/c/g, by)] for a one-character pattern. *)
Fixpoint replaceAll (c : ascii) (by_ : string) (s : string) : string :=
  match s with
  | EmptyString => EmptyString
  | String d r =>
      if Ascii.eqb d c then by_ +:+ replaceAll c by_ r else String d (replaceAll c by_ r)
  end.

Definition escapeXml (str : string) : string :=
  if isEmpty str then EmptyString
  else
    replaceAll "'" "&apos;"
      (replaceAll dquoteChar "&quot;"
         (replaceAll ">" "&gt;" (replaceAll "<" "&lt;" (replaceAll "&" "&amp;" str)))).

End CodecRest.

(** ** utils/webApiUtils.ts: table icons and the record form *)
Module Host.
Import Js Codec Resolver.







(** The argument of [context.navigation.openForm]. *)
Record FormOptions : Type := {
  entityName : string;
  entityId : string;
  openInNewWindow : bool;
  windowPosition : Z
}.

(** The options [openRecordForm] calls [openForm] with. *)
Definition openRecordForm_request (entityName entityId : string) (openInModal : bool)
  : FormOptions :=
  Build_FormOptions entityName (normalizeGuid entityId) false (if openInModal then 2 else 1).

(** [openRecordForm] once [openForm] has settled: a rejection is logged and
    thrown again. *)
Definition openRecordForm (openForm : Completion unit) : Completion unit := openForm.

(** [handleNavigateToRecord]: the debounce flag, the [openForm] calls that
    have not settled and the release timers that have not fired. *)
Record Navigation : Type := {
  isNavigating : bool;
  formsOpen : list FormOptions;
  timers : nat
}.

Definition idle : Navigation := Build_Navigation false [] 0.

(** Up to [await openRecordForm(...)]. *)
Definition handleNavigateToRecord (n : Navigation) (openLinksInModal : option bool)
    (record : ILookupRecord.t) : Navigation :=
  if isNavigating n then n
  else
    let openInModal := default false openLinksInModal in
    Build_Navigation true
      (formsOpen n ++ [openRecordForm_request (ILookupRecord.table record)
                         (ILookupRecord.id record) openInModal])
      (timers n).

(** From the point where the form call settles: whether it resolved or
    threw, the [finally] block arms the timer that releases the flag. *)
Definition handleNavigateToRecord_resume (n : Navigation) (outcome : Completion unit)
  : Navigation :=
  match openRecordForm outcome with
  | Return _ => Build_Navigation (isNavigating n) (tail (formsOpen n)) (S (timers n))
  | Throw _ => Build_Navigation (isNavigating n) (tail (formsOpen n)) (S (timers n))
  end.

(** The callback handed to [setTimeout]. *)
Definition releaseNavigation (n : Navigation) : Navigation :=
  Build_Navigation false (formsOpen n) (pred (timers n)).

Inductive NavEvent : Type :=
| Navigate (openLinksInModal : option bool) (record : ILookupRecord.t)
| FormSettles (outcome : Completion unit)
| TimerFires.

Definition navStep (e : NavEvent) (n : Navigation) : Navigation :=
  match e with
  | Navigate openLinksInModal record => handleNavigateToRecord n openLinksInModal record
  | FormSettles outcome =>
      match formsOpen n with
      | [] => n
      | _ :: _ => handleNavigateToRecord_resume n outcome
      end
  | TimerFires =>
      match timers n with
      | O => n
      | S _ => releaseNavigation n
      end
  end.

Definition navRun (events : list NavEvent) (n : Navigation) : Navigation :=
  fold_left (fun n e => navStep e n) events n.

End Host.

(** ** index.ts: outputs and the picker's options *)
Module IOutputs.
Record t : Type := mk {
  boundField : string;
  recordNamesOutput : string;
  selectionCount : nat
}.
End IOutputs.

Module ControlRest.
Import Js Codec CodecRest Resolver Control.

Definition getOutputs (s : State) : IOutputs.t :=
  IOutputs.mk (boundFieldValue s) (recordNamesValue s)
    (length (List.filter notLoading (selectedRecords s))).

(** [isAtMaxSelections] as [updateView] hands it to the component. *)
Definition isAtMaxSelections (s : State) (ctx : Context) : bool :=
  match positiveMax (maxSelections ctx) with
  | Some maxSelections =>
      if default false (allowMultiSelect ctx)
      then (maxSelections <=? Z.of_nat (length (selectedRecords s)))%Z
      else false
  | None => false
  end.

(** [lookupTables.includes(t)] *)
Definition includesTable (lookupTables : list string) (t : string) : bool :=
  existsb (String.eqb t) lookupTables.

(** The [defaultEntityType] that [handleLookupClick] settles on;
    [configured] is [parameters.defaultEntityType?.raw]. *)
Definition defaultEntityType (lookupTables : list string) (configured : option string)
  : option string :=
  let configuredDefault :=
    default "" ((fun raw => toLowerCase (trim raw)) <$> configured) in
  match lookupTables with
  | [only] => Some only
  | _ =>
      if (negb (isEmpty configuredDefault) && includesTable lookupTables configuredDefault)%bool
      then Some configuredDefault
      else None
  end.

End ControlRest.

(** ** Reference predicates for the properties below *)
Module SpecRest.
Import Js Codec CodecRest.

(** An entry the codec writes and reads back: an accepted identifier and a
    type that is not blank and holds no semicolon. *)
Definition wellFormedEntry (r : ILookupRecord.t) : Prop :=
  isValidGuid (ILookupRecord.id r) = true
  /\ isEmpty (trim (ILookupRecord.table r)) = false
  /\ allChars (fun c => negb (Ascii.eqb c ";")) (ILookupRecord.table r) = true.

(** The reference an entry stands for. *)
Definition refOf (r : ILookupRecord.t) : IParsedRecord.t :=
  IParsedRecord.mk (normalizeGuid (ILookupRecord.id r))
    (toLowerCase (trim (ILookupRecord.table r))).

(** An entry in normal form: normalizing its identifier or lower-casing its
    type changes nothing. *)
Definition normalEntry (r : ILookupRecord.t) : Prop :=
  normalizeGuid (ILookupRecord.id r) = ILookupRecord.id r
  /\ toLowerCase (ILookupRecord.table r) = ILookupRecord.table r.

(** The entity a single character is escaped to. *)
Definition escapeChar (c : ascii) : string :=
  if Ascii.eqb c "&" then "&amp;"
  else if Ascii.eqb c "<" then "&lt;"
  else if Ascii.eqb c ">" then "&gt;"
  else if Ascii.eqb c dquoteChar then "&quot;"
  else if Ascii.eqb c "'" then "&apos;"
  else String c EmptyString.

Fixpoint escapeEach (s : string) : string :=
  match s with
  | EmptyString => EmptyString
  | String c r => escapeChar c +:+ escapeEach r
  end.

(** A character markup gives a meaning to, other than the ampersand. *)
Definition isMarkup (c : ascii) : bool :=
  (Ascii.eqb c "<" || Ascii.eqb c ">" || Ascii.eqb c dquoteChar || Ascii.eqb c "'")%bool.

(** The last character of a string. *)
Definition lastChar (s : string) : option ascii := snd (lastTwo s).

(** Whether any selected entry belongs to the table, case ignored. *)
Definition hasSelected (selectedRecords : list ILookupRecord.t) (tableName : string) : bool :=
  existsb (fun r => String.eqb (toLowerCase (ILookupRecord.table r)) (toLowerCase tableName))
          selectedRecords.

(** A table name as [parseLookupTables] emits it: not empty, lower case,
    no surrounding white space, no comma. *)
Definition normalTable (t : string) : Prop :=
  t <> EmptyString /\ toLowerCase t = t /\ trim t = t
  /\ allChars (fun c => negb (Ascii.eqb c ",")) t = true.

(** A reference decoder for [escapeXml]: the five entities back to their
    characters. *)
Fixpoint unescapeXml (s : string) : string :=
  match s with
  | String "&" (String "a" (String "m" (String "p" (String ";" r)))) =>
      String "&" (unescapeXml r)
  | String "&" (String "l" (String "t" (String ";" r))) => String "<" (unescapeXml r)
  | String "&" (String "g" (String "t" (String ";" r))) => String ">" (unescapeXml r)
  | String "&" (String "q" (String "u" (String "o" (String "t" (String ";" r))))) =>
      String dquoteChar (unescapeXml r)
  | String "&" (String "a" (String "p" (String "o" (String "s" (String ";" r))))) =>
      String "'" (unescapeXml r)
  | String c r => String c (unescapeXml r)
  | EmptyString => EmptyString
  end.

(** The debounce discipline: the flag is set exactly while one form call or
    one release timer is outstanding, and nothing else is. *)
Definition debounced (n : Host.Navigation) : Prop :=
  (Host.isNavigating n = true /\ (length (Host.formsOpen n) + Host.timers n = 1)%nat)
  \/ (Host.isNavigating n = false /\ (length (Host.formsOpen n) + Host.timers n = 0)%nat).

End SpecRest.

(** * Facts about the string primitives *)
Module JsFacts.
Import Js.

(** Case analysis over the 256 code points. *)
Ltac by_code_points c :=
  destruct c as [[] [] [] [] [] [] [] []]; vm_compute; try reflexivity; try discriminate;
  try tauto.

Lemma append_nil t : EmptyString +:+ t = t.
Proof. reflexivity. Qed.

Lemma append_cons c r t : String c r +:+ t = String c (r +:+ t).
Proof. reflexivity. Qed.

Ltac str_simpl := repeat (rewrite ?append_nil, ?append_cons; simpl).

Lemma lowerChar_idem c : lowerChar (lowerChar c) = lowerChar c.
Proof. by_code_points c. Qed.

Lemma isBrace_lowerChar c : isBrace (lowerChar c) = isBrace c.
Proof. by_code_points c. Qed.

Lemma isHexDigit_lowerChar c : isHexDigit (lowerChar c) = isHexDigit c.
Proof. by_code_points c. Qed.

Lemma hyphen_lowerChar c : Ascii.eqb (lowerChar c) "-" = Ascii.eqb c "-".
Proof. by_code_points c. Qed.

Lemma isUpper_lowerChar c : isUpper (lowerChar c) = false.
Proof. by_code_points c. Qed.

Lemma isEmpty_true s : isEmpty s = true <-> s = EmptyString.
Proof. destruct s; simpl; split; congruence. Qed.

Lemma isEmpty_false s : isEmpty s = false <-> s <> EmptyString.
Proof. destruct s; simpl; split; congruence. Qed.

Lemma toLowerCase_idem s : toLowerCase (toLowerCase s) = toLowerCase s.
Proof. induction s as [|c r IH]; simpl; [reflexivity|]. by rewrite lowerChar_idem, IH. Qed.

Lemma toLowerCase_length s : String.length (toLowerCase s) = String.length s.
Proof. induction s as [|c r IH]; simpl; congruence. Qed.

Lemma toLowerCase_app s t : toLowerCase (s +:+ t) = toLowerCase s +:+ toLowerCase t.
Proof. induction s as [|c r IH]; str_simpl; congruence. Qed.

Lemma removeBraces_toLowerCase s : removeBraces (toLowerCase s) = toLowerCase (removeBraces s).
Proof.
  induction s as [|c r IH]; simpl; [reflexivity|].
  rewrite isBrace_lowerChar. destruct (isBrace c); simpl; congruence.
Qed.

Lemma removeBraces_idem s : removeBraces (removeBraces s) = removeBraces s.
Proof.
  induction s as [|c r IH]; simpl; [reflexivity|].
  destruct (isBrace c) eqn:E; simpl; [assumption|]. rewrite E. congruence.
Qed.

Lemma removeBraces_app s t : removeBraces (s +:+ t) = removeBraces s +:+ removeBraces t.
Proof.
  induction s as [|c r IH]; str_simpl; [reflexivity|].
  destruct (isBrace c); str_simpl; congruence.
Qed.

Lemma allChars_app p s t : allChars p (s +:+ t) = (allChars p s && allChars p t)%bool.
Proof. induction s as [|c r IH]; str_simpl; [reflexivity|]. rewrite IH. by rewrite andb_assoc. Qed.

Lemma allChars_impl (p q : ascii -> bool) s :
  (forall c, p c = true -> q c = true) -> allChars p s = true -> allChars q s = true.
Proof.
  intros Hpq. induction s as [|c r IH]; simpl; [done|].
  rewrite !andb_true_iff. intros [Hc Hr]. split; [by apply Hpq | by apply IH].
Qed.

(** [trim] of a string is empty exactly when the string is all white space. *)
Lemma trimStart_empty s : trimStart s = EmptyString <-> allChars isWhiteSpace s = true.
Proof.
  induction s as [|c r IH]; simpl; [done|].
  destruct (isWhiteSpace c); simpl; [exact IH | split; discriminate].
Qed.

Lemma trimEnd_empty s : trimEnd s = EmptyString <-> allChars isWhiteSpace s = true.
Proof.
  induction s as [|c r IH]; simpl; [done|].
  destruct (trimEnd r) eqn:E.
  - destruct (isWhiteSpace c); simpl; [|split; discriminate].
    split; [intros _; by apply IH | done].
  - split; [discriminate|]. rewrite andb_true_iff. intros [_ Hr].
    apply IH in Hr. discriminate.
Qed.

Lemma trimStart_white s : allChars isWhiteSpace s = true -> trimStart s = EmptyString.
Proof. apply trimStart_empty. Qed.

Lemma trimStart_suffix s : exists w, s = w +:+ trimStart s /\ allChars isWhiteSpace w = true.
Proof.
  induction s as [|c r [w [Hw Hall]]]; simpl.
  - by exists EmptyString.
  - destruct (isWhiteSpace c) eqn:E.
    + exists (String c w). str_simpl. rewrite E, Hall. split; [congruence | done].
    + by exists EmptyString.
Qed.

Lemma trim_empty s : trim s = EmptyString <-> allChars isWhiteSpace s = true.
Proof.
  unfold trim. rewrite trimEnd_empty. destruct (trimStart_suffix s) as [w [Hs Hw]].
  split; intros H.
  - rewrite Hs, allChars_app, Hw, H. done.
  - rewrite Hs, allChars_app, andb_true_iff in H. tauto.
Qed.

(** A string without white space is left alone by [trim]. *)
Lemma trimStart_notWhite s : allChars notWhite s = true -> trimStart s = s.
Proof.
  destruct s as [|c r]; simpl; [done|]. unfold notWhite at 1.
  destruct (isWhiteSpace c); simpl; [discriminate | done].
Qed.

Lemma trimEnd_notWhite s : allChars notWhite s = true -> trimEnd s = s.
Proof.
  induction s as [|c r IH]; simpl; [done|]. unfold notWhite at 1.
  rewrite andb_true_iff. intros [Hc Hr]. rewrite (IH Hr).
  destruct r; [|done]. by destruct (isWhiteSpace c).
Qed.

Lemma trim_notWhite s : allChars notWhite s = true -> trim s = s.
Proof. intros H. unfold trim. rewrite (trimStart_notWhite _ H). by apply trimEnd_notWhite. Qed.

(** [trim] is idempotent, and its result neither starts nor ends in white
    space. *)
Lemma trimEnd_idem s : trimEnd (trimEnd s) = trimEnd s.
Proof.
  induction s as [|c r IH]; simpl; [done|].
  destruct (trimEnd r) as [|d t] eqn:E.
  - destruct (isWhiteSpace c) eqn:Ec; simpl; [done|]. by rewrite Ec.
  - simpl in *. by rewrite IH.
Qed.

Lemma trimStart_trimEnd_head s :
  match s with String c _ => isWhiteSpace c = false | EmptyString => True end ->
  trimStart (trimEnd s) = trimEnd s.
Proof.
  destruct s as [|c r]; simpl; [done|]. intros Hc.
  destruct (trimEnd r); rewrite ?Hc; simpl; by rewrite ?Hc.
Qed.

Lemma trimStart_head s :
  match trimStart s with String c _ => isWhiteSpace c = false | EmptyString => True end.
Proof.
  induction s as [|c r IH]; simpl; [done|].
  destruct (isWhiteSpace c) eqn:E; [exact IH | exact E].
Qed.

Lemma trim_idem s : trim (trim s) = trim s.
Proof.
  unfold trim. rewrite (trimStart_trimEnd_head _ (trimStart_head s)). apply trimEnd_idem.
Qed.

(** [split] *)
Lemma split_nonempty sep s : split sep s <> [].
Proof.
  destruct s as [|c r]; simpl; [done|].
  destruct (Ascii.eqb c sep); [done|]. by destruct (split sep r).
Qed.

Lemma split_no_sep sep s :
  allChars (fun c => negb (Ascii.eqb c sep)) s = true -> split sep s = [s].
Proof.
  induction s as [|c r IH]; simpl; [done|].
  rewrite andb_true_iff, negb_true_iff. intros [Hc Hr]. by rewrite Hc, (IH Hr).
Qed.

Lemma split_app sep s t :
  allChars (fun c => negb (Ascii.eqb c sep)) s = true ->
  split sep (s +:+ String sep t) = s :: split sep t.
Proof.
  induction s as [|c r IH]; str_simpl.
  - intros _. by rewrite Ascii.eqb_refl.
  - rewrite andb_true_iff, negb_true_iff. intros [Hc Hr]. by rewrite Hc, (IH Hr).
Qed.

(** Joining the pieces with the separator gives the string back. *)
Lemma join_split sep s : join (String sep EmptyString) (split sep s) = s.
Proof.
  induction s as [|c r IH]; simpl; [done|].
  destruct (Ascii.eqb c sep) eqn:E.
  - apply Ascii.eqb_eq in E. subst c.
    pose proof (split_nonempty sep r) as Hne.
    destruct (split sep r) as [|h t] eqn:Es; [done|].
    change (join (String sep "") ("" :: h :: t)) with (String sep (join (String sep "") (h :: t))).
    by rewrite IH.
  - pose proof (split_nonempty sep r) as Hne.
    destruct (split sep r) as [|h t] eqn:Es; [done|].
    destruct t as [|h' t']; simpl in *; by rewrite <- IH.
Qed.

(** No piece of a split contains the separator. *)
Lemma split_pieces sep s :
  Forall (fun p => allChars (fun c => negb (Ascii.eqb c sep)) p = true) (split sep s).
Proof.
  induction s as [|c r IH]; simpl; [by repeat constructor|].
  destruct (Ascii.eqb c sep) eqn:E; [by constructor|].
  pose proof (split_nonempty sep r) as Hne.
  destruct (split sep r) as [|h t]; [done|].
  inversion IH as [|? ? Hh Ht]; subst. constructor; [|done]. simpl. by rewrite E, Hh.
Qed.

(** [indexOf], [substring] *)
Lemma indexOf_none c s :
  allChars (fun d => negb (Ascii.eqb d c)) s = true -> indexOf c s = None.
Proof.
  induction s as [|d r IH]; simpl; [done|].
  rewrite andb_true_iff, negb_true_iff. intros [Hd Hr]. by rewrite Hd, (IH Hr).
Qed.

Lemma indexOf_app c s t :
  allChars (fun d => negb (Ascii.eqb d c)) s = true ->
  indexOf c (s +:+ String c t) = Some (String.length s).
Proof.
  induction s as [|d r IH]; str_simpl.
  - intros _. by rewrite Ascii.eqb_refl.
  - rewrite andb_true_iff, negb_true_iff. intros [Hd Hr]. by rewrite Hd, (IH Hr).
Qed.

Lemma strTake_app s t : strTake (String.length s) (s +:+ t) = s.
Proof. induction s as [|c r IH]; str_simpl; [by destruct t | congruence]. Qed.

Lemma strDrop_app s t : strDrop (String.length s) (s +:+ t) = t.
Proof. induction s as [|c r IH]; str_simpl; [done | exact IH]. Qed.

Lemma substring_prefix s c t : substring 0 (String.length s) (s +:+ String c t) = s.
Proof. unfold substring. rewrite Nat.sub_0_r. simpl. apply strTake_app. Qed.

Lemma substringFrom_suffix s c t : substringFrom (String.length s + 1) (s +:+ String c t) = t.
Proof.
  unfold substringFrom. induction s as [|d r IH]; str_simpl; [done | exact IH].
Qed.

(** A segment splits at its first colon into what [substring] returns. *)
Lemma indexOf_decompose c s i :
  indexOf c s = Some i ->
  s = substring 0 i s +:+ String c (substringFrom (i + 1) s)
  /\ allChars (fun d => negb (Ascii.eqb d c)) (substring 0 i s) = true
  /\ String.length (substring 0 i s) = i.
Proof.
  unfold substring, substringFrom. revert i.
  induction s as [|d r IH]; simpl; [done|]. intros i.
  destruct (Ascii.eqb d c) eqn:E.
  - intros [= <-]. apply Ascii.eqb_eq in E. by subst d.
  - destruct (indexOf c r) as [j|] eqn:Ej; simpl; [|done]. intros [= <-].
    destruct (IH j eq_refl) as (H1 & H2 & H3). rewrite Nat.sub_0_r in *.
    simpl in *. str_simpl.
    rewrite E, H2, H3. simpl. by rewrite <- H1.
Qed.

Lemma allChars_split p sep s :
  allChars p s = true -> Forall (fun piece => allChars p piece = true) (split sep s).
Proof.
  induction s as [|c r IH]; simpl; [by repeat constructor|].
  rewrite andb_true_iff. intros [Hc Hr]. specialize (IH Hr).
  destruct (Ascii.eqb c sep); [by constructor|].
  pose proof (split_nonempty sep r) as Hne.
  destruct (split sep r) as [|h t]; [done|].
  inversion IH as [|? ? Hh Ht]; subst. constructor; [|done]. simpl. by rewrite Hc, Hh.
Qed.

Lemma allChars_strTake p n s : allChars p s = true -> allChars p (strTake n s) = true.
Proof.
  revert s. induction n as [|n IH]; intros [|c r]; simpl; try done.
  rewrite !andb_true_iff. intros [Hc Hr]. auto.
Qed.

Lemma allChars_strDrop p n s : allChars p s = true -> allChars p (strDrop n s) = true.
Proof.
  revert s. induction n as [|n IH]; intros [|c r]; simpl; try done.
  rewrite !andb_true_iff. intros [Hc Hr]. auto.
Qed.

(** The numeral a whole number is rendered as reads back as that number. *)
Lemma numberToString_reads_back z :
  Z.of_int <$> NilZero.int_of_string (numberToString z) = Some z.
Proof.
  unfold numberToString. rewrite NilZero.isi.
  - simpl. by rewrite DecimalZ.of_to.
  - destruct z; simpl; try discriminate.
    intros [= H]. by apply DecimalPos.Unsigned.to_uint_nonnil in H.
  - destruct z; simpl; try discriminate.
    intros [= H]. by apply DecimalPos.Unsigned.to_uint_nonnil in H.
Qed.

End JsFacts.

(** * Facts about the codec *)
Module CodecFacts.
Import Js Codec Spec JsFacts.

Lemma guidChar_notWhite c : guidChar c = true -> notWhite c = true.
Proof. by_code_points c. Qed.

Lemma guidChar_not_colon c : guidChar c = true -> negb (Ascii.eqb c ":") = true.
Proof. by_code_points c. Qed.

Lemma white_not_colon c : isWhiteSpace c = true -> negb (Ascii.eqb c ":") = true.
Proof. by_code_points c. Qed.

Lemma white_not_semicolon c : isWhiteSpace c = true -> negb (Ascii.eqb c ";") = true.
Proof. by_code_points c. Qed.

Lemma normalizeGuid_eq s : normalizeGuid s = toLowerCase (removeBraces s).
Proof. by destruct s. Qed.

Lemma normalizeGuid_idem s : normalizeGuid (normalizeGuid s) = normalizeGuid s.
Proof.
  rewrite !normalizeGuid_eq, removeBraces_toLowerCase, removeBraces_idem.
  apply toLowerCase_idem.
Qed.

(** Braces and letter case of the argument do not matter. *)
Lemma normalizeGuid_toLowerCase s : normalizeGuid (toLowerCase s) = normalizeGuid s.
Proof. by rewrite !normalizeGuid_eq, removeBraces_toLowerCase, toLowerCase_idem. Qed.

Lemma normalizeGuid_braces s : normalizeGuid ("{" +:+ s +:+ "}") = normalizeGuid s.
Proof.
  rewrite !normalizeGuid_eq, !removeBraces_app. str_simpl.
  replace (removeBraces s +:+ "") with (removeBraces s); [done|].
  generalize (removeBraces s). intros t. induction t; str_simpl; congruence.
Qed.

(** What the identifier pattern accepts is made of hex digits and hyphens. *)
Lemma matchGroups_all (p : ascii -> bool) groups s :
  (forall c, isHexDigit c = true -> p c = true) -> p "-"%char = true ->
  matchGroups groups s = true -> allChars p s = true.
Proof.
  intros Hhex Hhy.
  assert (Hrun : forall n s r, hexRun n s = Some r -> allChars p r = true -> allChars p s = true).
  { induction n as [|n IH]; intros s' r; simpl; [by intros [= ->]|].
    destruct s' as [|c t]; [done|]. destruct (isHexDigit c) eqn:E; [|done].
    intros H Hr. simpl. by rewrite (IH _ _ H Hr), (Hhex _ E). }
  assert (Hhyp : forall s r, hyphen s = Some r -> allChars p r = true -> allChars p s = true).
  { intros [|c t] r; simpl; [done|]. destruct (Ascii.eqb c "-") eqn:E; [|done].
    apply Ascii.eqb_eq in E. subst c. intros [= ->] Hr. simpl. by rewrite Hhy, Hr. }
  revert s. induction groups as [|n rest IH]; intros s; simpl; [done|].
  destruct rest as [|m rest'].
  - destruct (hexRun n s) as [[|]|] eqn:E; try done. intros _. by apply (Hrun _ _ _ E).
  - destruct (hexRun n s) as [r|] eqn:E; [|done].
    destruct (hyphen r) as [r'|] eqn:E'; [|done]. intros H.
    apply (Hrun _ _ _ E), (Hhyp _ _ E'), IH, H.
Qed.

Lemma matchGroups_chars groups s : matchGroups groups s = true -> allChars guidChar s = true.
Proof.
  apply matchGroups_all; [|done]. intros c Hc. unfold guidChar. by rewrite Hc.
Qed.

Lemma removeBraces_chars s : allChars guidChar (removeBraces s) = true -> allChars guidChar s = true.
Proof.
  induction s as [|c r IH]; simpl; [done|].
  destruct (isBrace c) eqn:E; simpl.
  - intros H. rewrite (IH H). unfold guidChar. rewrite E. by rewrite orb_true_r.
  - rewrite !andb_true_iff. intros [Hc Hr]. auto.
Qed.

Lemma isValidGuid_chars v : isValidGuid v = true -> allChars guidChar v = true.
Proof.
  unfold isValidGuid, guidRegex_test. destruct (isEmpty v); [done|].
  intros H. by apply removeBraces_chars, (matchGroups_chars _ _ H).
Qed.

Lemma isValidGuid_nonempty v : isValidGuid v = true -> v <> EmptyString.
Proof. by destruct v. Qed.

(** Lower-casing does not change what the pattern accepts. *)
Lemma hexRun_toLowerCase n s : hexRun n (toLowerCase s) = toLowerCase <$> hexRun n s.
Proof.
  revert s. induction n as [|n IH]; intros s; simpl; [done|].
  destruct s as [|c r]; simpl; [done|]. rewrite isHexDigit_lowerChar.
  destruct (isHexDigit c); [apply IH | done].
Qed.

Lemma hyphen_toLowerCase s : hyphen (toLowerCase s) = toLowerCase <$> hyphen s.
Proof.
  destruct s as [|c r]; simpl; [done|]. rewrite hyphen_lowerChar.
  by destruct (Ascii.eqb c "-").
Qed.

Lemma matchGroups_toLowerCase groups s :
  matchGroups groups (toLowerCase s) = matchGroups groups s.
Proof.
  revert s. induction groups as [|n rest IH]; intros s; simpl; [done|].
  rewrite hexRun_toLowerCase. destruct (hexRun n s) as [r|]; simpl.
  - destruct rest as [|m rest']; [by destruct r|].
    rewrite hyphen_toLowerCase. destruct (hyphen r) as [r'|]; simpl; [apply IH | done].
  - by destruct rest.
Qed.

Lemma normalizeGuid_canonical v : isValidGuid v = true -> isCanonicalGuid (normalizeGuid v) = true.
Proof.
  unfold isValidGuid, isCanonicalGuid. destruct (isEmpty v) eqn:E; [done|]. intros H.
  rewrite normalizeGuid_eq. unfold guidRegex_test in *.
  rewrite matchGroups_toLowerCase, H, toLowerCase_idem. simpl. apply String.eqb_refl.
Qed.

(** The loop of [parseBoundValue] appends what each entry contributes. *)
Lemma parseEntry_parseSegment records entry :
  parseEntry records entry = (records ++ option_list (parseSegment entry))%list.
Proof.
  unfold parseEntry, parseSegment, splitSegment.
  destruct (indexOf ":" entry) as [i|]; [|by rewrite app_nil_r].
  replace (0 <? String.length (trim (substringFrom (i + 1) entry)))%nat
    with (negb (isEmpty (trim (substringFrom (i + 1) entry))))
    by (by destruct (trim _)).
  destruct (_ && _)%bool; simpl; [done | by rewrite app_nil_r].
Qed.

Lemma parse_loop entries records :
  fold_left parseEntry entries records = (records ++ omap parseSegment entries)%list.
Proof.
  revert records. induction entries as [|e es IH]; intros records; simpl.
  - by rewrite app_nil_r.
  - rewrite IH, parseEntry_parseSegment, <- app_assoc. by destruct (parseSegment e).
Qed.

Lemma parseSegment_blank segment : isEmpty (trim segment) = true -> parseSegment segment = None.
Proof.
  rewrite isEmpty_true, trim_empty. intros H. unfold parseSegment, splitSegment.
  rewrite indexOf_none; [done|]. revert H. apply allChars_impl, white_not_colon.
Qed.

Lemma omap_blank_segments segments :
  omap parseSegment (List.filter (fun entry => negb (isEmpty (trim entry))) segments)
  = omap parseSegment (List.filter (fun segment => negb (isEmpty segment)) segments).
Proof.
  induction segments as [|g gs IH]; simpl; [done|].
  destruct (isEmpty (trim g)) eqn:Eb; simpl.
  - destruct (isEmpty g); simpl; [done|]. by rewrite (parseSegment_blank _ Eb).
  - assert (isEmpty g = false) as -> by (by destruct g).
    simpl. destruct (parseSegment g); [f_equal|]; exact IH.
Qed.

(** [parseBoundValue] computes the reference parse. *)
Lemma parseBoundValue_parse raw : parseBoundValue raw = parse raw.
Proof.
  unfold parseBoundValue, parse.
  destruct (isEmpty raw) eqn:E1; simpl.
  - apply isEmpty_true in E1. by subst raw.
  - destruct (isEmpty (trim raw)) eqn:E2.
    + pose proof E2 as Hw. rewrite isEmpty_true, trim_empty in Hw.
      rewrite split_no_sep by (revert Hw; apply allChars_impl, white_not_semicolon).
      cbn [List.filter]. rewrite E1. cbn [negb omap list_omap].
      by rewrite (parseSegment_blank _ E2).
    + rewrite parse_loop. simpl. apply omap_blank_segments.
Qed.

Lemma split_append sep a b :
  split sep (a +:+ String sep b) = (split sep a ++ split sep b)%list.
Proof.
  induction a as [|c r IH]; str_simpl.
  - by rewrite Ascii.eqb_refl.
  - destruct (Ascii.eqb c sep); [by rewrite IH|]. rewrite IH.
    pose proof (split_nonempty sep r). by destruct (split sep r).
Qed.

Lemma parse_append a b : parse (a +:+ ";" +:+ b) = (parse a ++ parse b)%list.
Proof.
  unfold parse. change (";" +:+ b) with (String ";" b).
  by rewrite split_append, List.filter_app, omap_app.
Qed.

Lemma toLowerCase_empty s : toLowerCase s = EmptyString -> s = EmptyString.
Proof. by destruct s. Qed.

(** What an emitted entry looks like. *)
Lemma parseSegment_canonical segment record :
  parseSegment segment = Some record ->
  isCanonicalGuid (IParsedRecord.id record) = true
  /\ toLowerCase (IParsedRecord.table record) = IParsedRecord.table record
  /\ IParsedRecord.table record <> EmptyString.
Proof.
  unfold parseSegment. destruct (splitSegment segment) as [[identifier type]|]; [|done].
  destruct (isValidGuid identifier) eqn:Ev; [|done].
  destruct (isEmpty type) eqn:Et; [done|]. simpl. intros [= <-]. simpl.
  split; [by apply normalizeGuid_canonical|]. split; [apply toLowerCase_idem|].
  intros H. apply toLowerCase_empty in H. subst type. done.
Qed.

Lemma parse_canonical raw :
  Forall (fun record =>
            isCanonicalGuid (IParsedRecord.id record) = true
            /\ toLowerCase (IParsedRecord.table record) = IParsedRecord.table record
            /\ IParsedRecord.table record <> EmptyString)
         (parse raw).
Proof.
  unfold parse. generalize (List.filter (fun segment => negb (isEmpty segment)) (split ";" raw)).
  intros l. induction l as [|g gs IH]; simpl; [constructor|].
  destruct (parseSegment g) eqn:E; [|done]. constructor; [|done].
  by apply (parseSegment_canonical g).
Qed.

(** What a well-formed segment contributes. *)
Lemma parseSegment_valid identifier type :
  isValidGuid identifier = true ->
  isEmpty (trim type) = false ->
  parseSegment (segmentText identifier type)
  = Some (IParsedRecord.mk (normalizeGuid identifier) (toLowerCase (trim type))).
Proof.
  intros Hv Ht. pose proof (isValidGuid_chars _ Hv) as Hc.
  unfold parseSegment, splitSegment, segmentText. change (":" +:+ type) with (String ":" type).
  rewrite indexOf_app by (revert Hc; apply allChars_impl, guidChar_not_colon).
  rewrite substring_prefix, substringFrom_suffix.
  rewrite trim_notWhite by (revert Hc; apply allChars_impl, guidChar_notWhite).
  by rewrite Hv, Ht.
Qed.

Lemma segmentText_nonempty identifier type :
  isValidGuid identifier = true -> isEmpty (segmentText identifier type) = false.
Proof. intros H. destruct identifier; [done|]. reflexivity. Qed.

Lemma parse_valid_segments (segments : list (string * string)) :
  Forall (fun seg => isValidGuid (fst seg) = true /\ isEmpty (trim (snd seg)) = false) segments ->
  omap parseSegment
    (List.filter (fun segment => negb (isEmpty segment))
       (map (fun seg => segmentText (fst seg) (snd seg)) segments))
  = map (fun seg => IParsedRecord.mk (normalizeGuid (fst seg)) (toLowerCase (trim (snd seg))))
        segments.
Proof.
  induction 1 as [|[identifier type] rest [Hv Ht] _ IH]; simpl; [done|].
  rewrite (segmentText_nonempty _ _ Hv). simpl in Hv, Ht. cbn [negb omap list_omap].
  rewrite (parseSegment_valid _ _ Hv Ht). f_equal. exact IH.
Qed.

Lemma serializeToBoundValue_map records :
  serializeToBoundValue records
  = join ";" (map (fun record => normalizeGuid (ILookupRecord.id record) +:+ ":" +:+
                                   toLowerCase (ILookupRecord.table record)) records).
Proof. unfold serializeToBoundValue. by destruct records. Qed.

Lemma removeBraces_none s : allChars (fun c => negb (isBrace c)) s = true -> removeBraces s = s.
Proof.
  induction s as [|c r IH]; simpl; [done|]. rewrite andb_true_iff, negb_true_iff.
  intros [Hc Hr]. by rewrite Hc, (IH Hr).
Qed.

Lemma hex_not_brace c : isHexDigit c = true -> negb (isBrace c) = true.
Proof. by_code_points c. Qed.

(** A token matching the pattern is accepted bare and wrapped in braces. *)
Lemma isValidGuid_wrapped g :
  guidRegex_test g = true ->
  isValidGuid g = true /\ isValidGuid ("{" +:+ g +:+ "}") = true.
Proof.
  intros H. assert (removeBraces g = g) as Hg.
  { apply removeBraces_none. revert H. unfold guidRegex_test.
    apply matchGroups_all; [apply hex_not_brace | done]. }
  unfold isValidGuid. split.
  - destruct g; [done|]. simpl isEmpty. cbv zeta. by rewrite Hg.
  - str_simpl. rewrite removeBraces_app, Hg. str_simpl.
    replace (g +:+ "") with g; [done|]. clear. induction g; str_simpl; congruence.
Qed.

(** On input that holds no white space the code parses as the
    specification words it. *)
Lemma parseSegment_as_written segment :
  allChars notWhite segment = true -> parseSegment segment = parseSegmentAsWritten segment.
Proof.
  intros H. unfold parseSegment, splitSegment, parseSegmentAsWritten.
  destruct (indexOf ":" segment) as [i|]; [|done].
  unfold substring, substringFrom.
  by rewrite !trim_notWhite by auto using allChars_strTake, allChars_strDrop.
Qed.

Lemma parse_as_written raw :
  allChars notWhite raw = true -> parseBoundValue raw = parseAsWritten raw.
Proof.
  intros H. rewrite parseBoundValue_parse. unfold parse, parseAsWritten.
  pose proof (allChars_split notWhite ";" raw H) as Hpieces.
  induction Hpieces as [|g gs Hg _ IH]; simpl; [done|].
  destruct (isEmpty g); simpl; [exact IH|].
  rewrite (parseSegment_as_written _ Hg).
  destruct (parseSegmentAsWritten g); [f_equal|]; exact IH.
Qed.

(** ** The claims about the codec *)

(** C8, with the trimming the code performs made explicit: [parseBoundValue]
    splits the bound string on the semicolon, discards empty segments, splits
    each remaining segment on its first colon into (identifier, type), trims
    the white space around both, and drops every segment whose trimmed
    identifier fails the 8-4-4-4-12 hex grammar or whose trimmed type is
    empty.  It is total; every emitted entry carries an identifier in the
    lower-case brace-free grammar and a non-empty lower-case type; the parse
    of a concatenation is the concatenation of the parses (input order kept,
    nothing deduplicated); and the parse of the empty string is empty. *)
Theorem parseBoundValue_spec :
  (forall raw, parseBoundValue raw = parse raw)
  /\ (forall raw,
        Forall (fun record =>
                  isCanonicalGuid (IParsedRecord.id record) = true
                  /\ toLowerCase (IParsedRecord.table record) = IParsedRecord.table record
                  /\ IParsedRecord.table record <> EmptyString)
               (parseBoundValue raw))
  /\ (forall a b, parseBoundValue (a +:+ ";" +:+ b)
                  = (parseBoundValue a ++ parseBoundValue b)%list)
  /\ parseBoundValue "" = [].
Proof.
  split; [exact parseBoundValue_parse|]. split.
  - intros raw. rewrite parseBoundValue_parse. apply parse_canonical.
  - split; [|reflexivity]. intros a b. rewrite !parseBoundValue_parse. apply parse_append.
Qed.

(** C8 as written fails: split on the first colon, the identifier of this
    segment is the 37 characters starting with a space, which the grammar
    rejects, yet the segment is not dropped; and the second segment's type,
    a single space, is not empty, yet that segment is dropped.  On both the
    code departs from the parse as the specification words it. *)
Lemma parseBoundValue_trims_before_validating :
  let segment := " 11111111-1111-1111-1111-111111111111:account" in
  let blankType := "22222222-2222-2222-2222-222222222222: " in
  (split ";" segment = [segment]
   /\ indexOf ":" segment = Some 37
   /\ isValidGuid (substring 0 37 segment) = false
   /\ parseBoundValue segment
      = [IParsedRecord.mk "11111111-1111-1111-1111-111111111111" "account"]
   /\ parseBoundValue segment <> parseAsWritten segment)
  /\ (split ";" blankType = [blankType]
      /\ indexOf ":" blankType = Some 36
      /\ isValidGuid (substring 0 36 blankType) = true
      /\ isEmpty (substringFrom 37 blankType) = false
      /\ parseBoundValue blankType = []
      /\ parseBoundValue blankType <> parseAsWritten blankType).
Proof. vm_compute. repeat split; try reflexivity; discriminate. Qed.

(** C2, with the trimming the code performs made explicit: when every
    segment of the bound string is an accepted identifier (the 8-4-4-4-12
    token, bare or in braces), a colon, and a type that is not blank, then
    the parse has one entry per segment, in order, and serializing it gives
    back each identifier lower-cased with braces stripped and each type
    trimmed and lower-cased, joined by semicolons. *)
Theorem parse_serialize_roundtrip
    (toEntry : IParsedRecord.t -> ILookupRecord.t) (raw : string)
    (segments : list (string * string)) :
  (forall p, ILookupRecord.id (toEntry p) = IParsedRecord.id p
             /\ ILookupRecord.table (toEntry p) = IParsedRecord.table p) ->
  split ";" raw = map (fun seg => segmentText (fst seg) (snd seg)) segments ->
  Forall (fun seg => isValidGuid (fst seg) = true /\ isEmpty (trim (snd seg)) = false)
         segments ->
  parseBoundValue raw
  = map (fun seg => IParsedRecord.mk (normalizeGuid (fst seg)) (toLowerCase (trim (snd seg))))
        segments
  /\ serializeToBoundValue (map toEntry (parseBoundValue raw))
     = join ";" (map (fun seg => canonicalText (fst seg) (snd seg)) segments).
Proof.
  intros Hentry Hsplit Hvalid.
  assert (parseBoundValue raw
          = map (fun seg => IParsedRecord.mk (normalizeGuid (fst seg))
                              (toLowerCase (trim (snd seg)))) segments) as Hparse.
  { rewrite parseBoundValue_parse. unfold parse. rewrite Hsplit.
    by apply parse_valid_segments. }
  split; [exact Hparse|].
  rewrite serializeToBoundValue_map, Hparse, !map_map. f_equal.
  apply map_ext. intros [identifier type]. simpl.
  destruct (Hentry (IParsedRecord.mk (normalizeGuid identifier) (toLowerCase (trim type))))
    as [-> ->]. simpl.
  unfold canonicalText. by rewrite normalizeGuid_idem, toLowerCase_idem.
Qed.

Lemma parse_serialize_roundtrip_witness :
  serializeToBoundValue
    (map Control.placeholder
       (parseBoundValue
          "{AAAAAAAA-1111-1111-1111-11111111111B}:Account;bbbbbbbb-2222-2222-2222-222222222222: Contact "))
  = "aaaaaaaa-1111-1111-1111-11111111111b:account;bbbbbbbb-2222-2222-2222-222222222222:contact".
Proof.
  refine (proj2 (parse_serialize_roundtrip Control.placeholder _
                   [("{AAAAAAAA-1111-1111-1111-11111111111B}", "Account");
                    ("bbbbbbbb-2222-2222-2222-222222222222", " Contact ")] _ _ _)).
  - intros p. split; reflexivity.
  - vm_compute. reflexivity.
  - repeat (constructor; [split; vm_compute; reflexivity|]). constructor.
Defined.

(** C2 as written fails: the only segment is an accepted identifier, a
    colon and a type that is not empty (one space), yet the serialized parse
    is empty; and a type with a leading space comes back without it. *)
Lemma roundtrip_loses_blank_type :
  let identifier := "11111111-1111-1111-1111-111111111111" in
  (split ";" (segmentText identifier " ") = [segmentText identifier " "]
   /\ isValidGuid identifier = true
   /\ isEmpty " " = false
   /\ serializeToBoundValue
        (map Control.placeholder (parseBoundValue (segmentText identifier " "))) = ""
   /\ "" <> normalizeGuid identifier +:+ ":" +:+ toLowerCase " ")
  /\ (serializeToBoundValue
        (map Control.placeholder (parseBoundValue (segmentText identifier " Account")))
      = identifier +:+ ":account"
      /\ identifier +:+ ":account" <> normalizeGuid identifier +:+ ":" +:+ toLowerCase " Account").
Proof. vm_compute. repeat split; try reflexivity; discriminate. Qed.

Lemma canonical_normal g : isCanonicalGuid g = true -> normalizeGuid g = g.
Proof.
  unfold isCanonicalGuid. rewrite andb_true_iff, String.eqb_eq. intros [Hre Hlow].
  rewrite normalizeGuid_eq, removeBraces_none; [done|].
  revert Hre. unfold guidRegex_test. apply matchGroups_all; [apply hex_not_brace | done].
Qed.

(** C10: [removeRecordById] matches by identifier with braces stripped and
    letter case ignored, on the supplied identifier and on every stored
    entry alike: the result is the entries, in their order, whose identifier
    is not the supplied one in that sense.  So an entry goes exactly when
    its identifier matches, whatever the case or braces of either; every
    such entry goes, wherever it occurs and however often; an entry under
    another identifier stays (two identifiers in canonical form match only
    when they are equal); the entries that stay keep their relative order.
    The result is a new list: the argument, a value, is unchanged. *)
Theorem removeRecordById_spec (recordId : string) :
  (forall record,
      removeRecordById recordId [record]
      = if String.eqb (normalizeGuid (ILookupRecord.id record)) (normalizeGuid recordId)
        then [] else [record])
  /\ (forall before after,
        removeRecordById recordId (before ++ after)
        = (removeRecordById recordId before ++ removeRecordById recordId after)%list)
  /\ (forall selectedRecords,
        removeRecordById recordId selectedRecords
        = List.filter (fun record => negb (sameIdentifier (ILookupRecord.id record) recordId))
                      selectedRecords
        /\ sublist (removeRecordById recordId selectedRecords) selectedRecords
        /\ Forall (fun record =>
                     normalizeGuid (ILookupRecord.id record) <> normalizeGuid recordId)
                  (removeRecordById recordId selectedRecords)
        /\ removeRecordById (toLowerCase recordId) selectedRecords
           = removeRecordById recordId selectedRecords
        /\ removeRecordById ("{" +:+ recordId +:+ "}") selectedRecords
           = removeRecordById recordId selectedRecords
        /\ removeRecordById (normalizeGuid recordId) selectedRecords
           = removeRecordById recordId selectedRecords)
  /\ (forall record selectedRecords,
        isCanonicalGuid recordId = true ->
        isCanonicalGuid (ILookupRecord.id record) = true ->
        (In record (removeRecordById recordId selectedRecords)
         <-> In record selectedRecords /\ ILookupRecord.id record <> recordId)).
Proof.
  split; [|split; [|split]].
  - intros record. unfold removeRecordById. simpl.
    by destruct (String.eqb _ _).
  - intros before after. unfold removeRecordById. apply List.filter_app.
  - intros selectedRecords. split; [|split; [|split; [|split; [|split]]]].
    + unfold removeRecordById, sameIdentifier. apply List.filter_ext. intros record.
      by rewrite !normalizeGuid_eq.
    + unfold removeRecordById. induction selectedRecords as [|r l IH]; simpl; [constructor|].
      destruct (negb _); by constructor.
    + unfold removeRecordById. apply List.Forall_forall. intros r Hin.
      apply List.filter_In in Hin. destruct Hin as [_ Hne].
      apply negb_true_iff, String.eqb_neq in Hne. exact Hne.
    + unfold removeRecordById. by rewrite normalizeGuid_toLowerCase.
    + unfold removeRecordById. by rewrite normalizeGuid_braces.
    + unfold removeRecordById. by rewrite normalizeGuid_idem.
  - intros record selectedRecords Hid Hrecord. unfold removeRecordById.
    rewrite List.filter_In, negb_true_iff, String.eqb_neq.
    by rewrite (canonical_normal _ Hid), (canonical_normal _ Hrecord).
Qed.

Lemma removeRecordById_spec_witness :
  let entry id name := ILookupRecord.mk id "contact" name None None in
  let selected := [entry "{AAAAAAAA-1111-1111-1111-11111111111B}" "Jane";
                   entry "bbbbbbbb-2222-2222-2222-222222222222" "John";
                   entry "aaaaaaaa-1111-1111-1111-11111111111b" "Jane again"] in
  let removed := removeRecordById "aaaaaaaa-1111-1111-1111-11111111111b" selected in
  In (entry "bbbbbbbb-2222-2222-2222-222222222222" "John") removed
  /\ removed = [entry "bbbbbbbb-2222-2222-2222-222222222222" "John"].
Proof.
  intros entry selected removed. split.
  - apply (proj2 (proj2 (proj2
             (removeRecordById_spec "aaaaaaaa-1111-1111-1111-11111111111b")))
             (entry "bbbbbbbb-2222-2222-2222-222222222222" "John") selected);
      [vm_compute; reflexivity | vm_compute; reflexivity |].
    split; [right; left; reflexivity | discriminate].
  - unfold removed.
    rewrite (proj1 (proj1 (proj2 (proj2
               (removeRecordById_spec "aaaaaaaa-1111-1111-1111-11111111111b"))) selected)).
    vm_compute. reflexivity.
Defined.

End CodecFacts.

(** * Facts about the resolver *)
Module ResolverFacts.
Import Js Codec Resolver Spec JsFacts CodecFacts.

Lemma retrieveRecord_recordOf webAPI parsed :
  raised webAPI parsed = None ->
  snd (retrieveRecord webAPI (IParsedRecord.table parsed) (IParsedRecord.id parsed))
  = Return (recordOf webAPI parsed).
Proof. unfold raised, recordOf. by destruct (snd _). Qed.

Lemma retrieveRecord_raised webAPI parsed error :
  raised webAPI parsed = Some error ->
  snd (retrieveRecord webAPI (IParsedRecord.table parsed) (IParsedRecord.id parsed))
  = Throw error.
Proof. unfold raised. destruct (snd _); [done|]. by intros [= ->]. Qed.

(** What a lookup hands back carries the normalized identifier and the
    lower-cased table of the reference, and is not pending. *)
Lemma recordOf_fields webAPI parsed record :
  recordOf webAPI parsed = Some record ->
  ILookupRecord.id record = normalizeGuid (IParsedRecord.id parsed)
  /\ ILookupRecord.table record = toLowerCase (IParsedRecord.table parsed)
  /\ ILookupRecord.isLoading record = None.
Proof.
  unfold recordOf, retrieveRecord.
  generalize (getPrimaryNameField (IParsedRecord.table parsed)). intros field.
  destruct (webAPI _ _ _) as [[resultObj|]|error]; cbn [snd].
  - by intros [= <-].
  - done.
  - destruct (isWebApiError error); [|done]. by destruct (isSilentError error) as [[|]|].
Qed.



Lemma partition_loop webAPI parsedRecords valid deleted :
  fold_left partitionStep (map (fun p => (p, recordOf webAPI p)) parsedRecords) (valid, deleted)
  = ((valid ++ omap (recordOf webAPI) parsedRecords)%list,
     (deleted ++ map IParsedRecord.id (notFound webAPI parsedRecords))%list).
Proof.
  unfold notFound.
  revert valid deleted. induction parsedRecords as [|p ps IH]; intros valid deleted; simpl.
  - by rewrite !app_nil_r.
  - unfold partitionStep at 2. simpl. destruct (recordOf webAPI p) as [r|] eqn:E; simpl.
    + rewrite IH. by rewrite <- app_assoc.
    + rewrite IH. by rewrite <- app_assoc.
Qed.

(** [Promise.all] over the lookups: the first rejection in order, or every
    reference with what its lookup handed back. *)
Lemma promiseAll_lookups webAPI parsedRecords :
  promiseAll
    (map (fun parsed =>
            match snd (retrieveRecord webAPI (IParsedRecord.table parsed)
                         (IParsedRecord.id parsed)) with
            | Return record => Return (parsed, record)
            | Throw e => Throw e
            end) parsedRecords)
  = match firstRaised webAPI parsedRecords with
    | Some error => Throw error
    | None => Return (map (fun p => (p, recordOf webAPI p)) parsedRecords)
    end.
Proof.
  induction parsedRecords as [|p ps IH]; [done|].
  cbn [map promiseAll firstRaised]. unfold raised at 1, recordOf at 1.
  destruct (snd (retrieveRecord webAPI (IParsedRecord.table p) (IParsedRecord.id p)))
    as [record|error]; [|done].
  rewrite IH. by destruct (firstRaised webAPI ps).
Qed.

(** How [retrieveAllRecords] completes: it rejects with the first rejection
    among its lookups, and otherwise hands back the resolved references in
    the order they were asked for, the identifiers of the others, and
    whether there are any of the latter. *)
Lemma retrieveAllRecords_outcome webAPI parsedRecords :
  snd (retrieveAllRecords webAPI parsedRecords)
  = match firstRaised webAPI parsedRecords with
    | Some error => Throw error
    | None =>
        Return (Build_IRecordRetrievalResult
                  (omap (recordOf webAPI) parsedRecords)
                  (map IParsedRecord.id (notFound webAPI parsedRecords))
                  (0 <? length (map IParsedRecord.id (notFound webAPI parsedRecords)))%nat)
    end.
Proof.
  unfold retrieveAllRecords. destruct parsedRecords as [|p ps] eqn:E; simpl Nat.eqb; cbv iota.
  - reflexivity.
  - rewrite <- E. clear E p ps. rewrite map_map. cbn [fst snd].
    rewrite promiseAll_lookups. destruct (firstRaised webAPI parsedRecords); [done|].
    rewrite partition_loop. reflexivity.
Qed.

(** When no lookup raises, [retrieveAllRecords] completes normally, with
    the resolved references in the order they were asked for. *)
Lemma retrieveAllRecords_returns webAPI parsedRecords :
  firstRaised webAPI parsedRecords = None ->
  exists result,
    snd (retrieveAllRecords webAPI parsedRecords) = Return result
    /\ validRecords result = omap (recordOf webAPI) parsedRecords.
Proof. intros H. rewrite retrieveAllRecords_outcome, H. by eexists. Qed.

(** Whatever [retrieveAllRecords] hands back is the resolved references. *)
Lemma retrieveAllRecords_valid webAPI parsedRecords result :
  snd (retrieveAllRecords webAPI parsedRecords) = Return result ->
  firstRaised webAPI parsedRecords = None
  /\ validRecords result = omap (recordOf webAPI) parsedRecords
  /\ deletedRecordIds result = map IParsedRecord.id (notFound webAPI parsedRecords)
  /\ hasDeletedRecords result = (0 <? length (deletedRecordIds result))%nat.
Proof.
  rewrite retrieveAllRecords_outcome. destruct (firstRaised webAPI parsedRecords); [done|].
  by intros [= <-].
Qed.

Lemma resolution_eq webAPI raw :
  firstRaised webAPI (parseBoundValue raw) = None ->
  resolution webAPI raw = omap (recordOf webAPI) (parseBoundValue raw).
Proof. intros H. unfold resolution. by rewrite retrieveAllRecords_outcome, H. Qed.

(** A store that answers or rejects with well-typed values makes no lookup
    raise. *)
Lemma codeAmong_codeIs c n t :
  codeAmong c [n] [t] = (codeIs c (CodeNum n) || codeIs c (CodeStr t))%bool.
Proof.
  destruct c as [[m|u|]|]; simpl; try done.
  - rewrite orb_false_r. apply eq_true_iff_eq.
    rewrite bool_decide_eq_true, list_elem_of_singleton, Z.eqb_eq. done.
  - apply eq_true_iff_eq.
    rewrite bool_decide_eq_true, list_elem_of_singleton, String.eqb_eq. done.
Qed.

(** The test of the catch block, by class. *)
Lemma isSilentError_class code errorCode message :
  isSilentError (ErrObject code errorCode message)
  = match failureClass (ErrObject code errorCode message) with
    | NotFoundOrForbidden => Return true
    | OtherFailure => Return false
    | IllTypedMessage => Throw (notAFunction "errorMessage.includes")
    end.
Proof.
  unfold isSilentError, failureClass, effectiveCode.
  set (c := match code with Some c => Some c | None => errorCode end).
  rewrite !codeAmong_codeIs.
  destruct (codeIs c (CodeNum 404) || codeIs c (CodeStr "0x80040217"))%bool; [done|].
  destruct message as [[text|[[|]|] cancelled]|]; cbn [messageIncludes orb].
  - rewrite <- orb_assoc. by destruct (_ || _)%bool.
  - done.
  - by destruct (_ || _)%bool.
  - done.
  - by destruct (_ || _)%bool.
Qed.

(** ** The claim about the resolver *)

(** C3, as the code has it.  A rejection of the record store ends the
    lookup by its class.  Not-found or forbidden, that is a code ([code], or
    [errorCode] when [code] is absent) of 404, 0x80040217, 403 or
    0x80040220, or a message holding the words does not exist: NotFound
    (null), nothing logged.  Any other rejection whose message can be read:
    one console line naming the identifier and the table, then NotFound
    (null) as well; it is not handed on to the caller.  The lookup raises in
    one case only: the message of the rejection is neither a string nor has
    an [includes] method, and the code is neither 404 nor 0x80040217; the
    catch block's own call of [includes] then raises a TypeError.  A store
    that answers makes the lookup complete without a console line. *)
Theorem retrieveRecord_failures (webAPI : WebApi) (tableName recordId : string) :
  let asked :=
    webAPI tableName (normalizeGuid recordId)
      ("?$select=" +:+ fieldText (getPrimaryNameField tableName)) in
  (forall error,
      asked = Throw error ->
      retrieveRecord webAPI tableName recordId
      = match failureClass error with
        | NotFoundOrForbidden => ([], Return None)
        | OtherFailure =>
            ([Build_LogEntry
                ("[PseudoLookup] Error retrieving record " +:+ recordId +:+ " from "
                 +:+ tableName +:+ ":") error],
             Return None)
        | IllTypedMessage => ([], Throw (notAFunction "errorMessage.includes"))
        end)
  /\ (forall result,
        asked = Return result ->
        exists record, retrieveRecord webAPI tableName recordId = ([], Return record)).
Proof.
  intros asked. split.
  - intros error H. unfold retrieveRecord. fold asked. rewrite H.
    destruct error as [code errorCode message|]; cbn [isWebApiError]; [|done].
    rewrite isSilentError_class. by destruct (failureClass _).
  - intros result H. unfold retrieveRecord. fold asked. rewrite H.
    destruct result; by eexists.
Qed.

Lemma retrieveRecord_failures_witness :
  retrieveRecord (fun _ _ _ => Throw (ErrObject None (Some (CodeStr "0x80040220")) None))
                 "contact" "{11111111-1111-1111-1111-111111111111}"
  = ([], Return None).
Proof.
  exact (proj1 (retrieveRecord_failures
                  (fun _ _ _ => Throw (ErrObject None (Some (CodeStr "0x80040220")) None))
                  "contact" "{11111111-1111-1111-1111-111111111111}")
               _ eq_refl).
Defined.

(** C3 as written fails: a server error (code 500) is neither not-found nor
    forbidden, yet the lookup does not hand it on: it logs and completes
    with NotFound, as it does for a missing record. *)
Lemma retrieveRecord_absorbs_server_error :
  let error := ErrObject (Some (CodeNum 500)) None (Some (MsgString "Internal Server Error")) in
  let recordId := "11111111-1111-1111-1111-111111111111" in
  failureClass error = OtherFailure
  /\ retrieveRecord (fun _ _ _ => Throw error) "account" recordId
     = ([Build_LogEntry
           "[PseudoLookup] Error retrieving record 11111111-1111-1111-1111-111111111111 from account:"
           error],
        Return None)
  /\ (forall raised, snd (retrieveRecord (fun _ _ _ => Throw error) "account" recordId)
                     <> Throw raised).
Proof. vm_compute. repeat split; try reflexivity. intros raised. discriminate. Qed.

(** The five classes that end silently, one by one, and the one rejection
    that makes the lookup raise. *)
Example failure_classes :
  let lookup error :=
    retrieveRecord (fun _ _ _ => Throw error) "contact" "11111111-1111-1111-1111-111111111111" in
  lookup (ErrObject (Some (CodeNum 404)) None None) = ([], Return None)
  /\ lookup (ErrObject None (Some (CodeStr "0x80040217")) None) = ([], Return None)
  /\ lookup (ErrObject None None (Some (MsgString "contact With Id = 1 Does Not Exist")))
     <> ([], Return None)
  /\ lookup (ErrObject None None (Some (MsgString "The record does not exist."))) = ([], Return None)
  /\ lookup (ErrObject (Some (CodeNum 403)) None None) = ([], Return None)
  /\ lookup (ErrObject (Some (CodeStr "0x80040220")) (Some (CodeNum 500)) None) = ([], Return None)
  /\ lookup (ErrObject (Some (CodeNum 404)) None (Some (MsgOther None None))) = ([], Return None)
  /\ snd (lookup (ErrObject (Some (CodeNum 500)) None (Some (MsgOther None None))))
     = Throw (notAFunction "errorMessage.includes")
  /\ snd (lookup (ErrObject (Some (CodeNum 403)) None (Some (MsgOther None None))))
     = Throw (notAFunction "errorMessage.includes").
Proof. vm_compute. repeat split; try reflexivity. discriminate. Qed.

End ResolverFacts.

(** * Facts about the control *)
Module ControlFacts.
Import Js Codec Resolver Control Spec JsFacts CodecFacts ResolverFacts.

(** Read a field through the assignments made before it. *)
Ltac fields :=
  cbn [selectedRecords errorMessage boundFieldValue recordNamesValue isInitialized
       lastBoundValue isLoadingInProgress tableIconCache iconCacheLoaded stateVersion
       context outputChanges
       set_selectedRecords set_errorMessage set_boundFieldValue set_recordNamesValue
       set_isInitialized set_lastBoundValue set_isLoadingInProgress set_tableIconCache
       set_iconCacheLoaded set_stateVersion set_context notifyOutputChanged
       triggerRerender loadFinally destroy fst snd control loads dialogs iconLoads
       loadingValue parsedRecords] in *.

Ltac branches :=
  repeat match goal with
         | |- context [if ?b then _ else _] => destruct b eqn:?
         | |- context [match ?o with Some _ => _ | None => _ end] => destruct o eqn:?
         end.

Lemma removeRecordById_idem recordId l :
  removeRecordById recordId (removeRecordById recordId l) = removeRecordById recordId l.
Proof.
  unfold removeRecordById. induction l as [|r l IH]; simpl; [done|].
  destruct (negb _) eqn:E; simpl; [|exact IH]. rewrite E. f_equal. exact IH.
Qed.

Lemma removeRecordById_absent recordId l :
  isRecordSelected recordId l = false -> removeRecordById recordId l = l.
Proof.
  unfold isRecordSelected, removeRecordById. induction l as [|r l IH]; simpl; [done|].
  rewrite orb_false_iff. intros [-> Hl]. simpl. f_equal. by apply IH.
Qed.

(** The set of selected identifiers built by [processLookupResults] answers
    membership as [isRecordSelected] does. *)
Lemma existingIds_isRecordSelected (selected : list ILookupRecord.t) (r : ILookupRecord.t) :
  bool_decide
    (normalizeGuid (ILookupRecord.id r)
     ∈ (list_to_set (map (fun x => normalizeGuid (ILookupRecord.id x)) selected) : gset string))
  = isRecordSelected (ILookupRecord.id r) selected.
Proof.
  unfold isRecordSelected. apply eq_true_iff_eq.
  rewrite bool_decide_eq_true, elem_of_list_to_set, existsb_exists. split.
  - intros Hin. apply list_elem_of_In, in_map_iff in Hin. destruct Hin as (x & Hx & Hin).
    exists x. split; [done|]. by apply String.eqb_eq.
  - intros (x & Hin & Hx). apply String.eqb_eq in Hx.
    apply list_elem_of_In, in_map_iff. by exists x.
Qed.

Lemma uniqueNewRecords_eq (selected newRecords : list ILookupRecord.t) :
  List.filter
    (fun r => negb (bool_decide
                      (normalizeGuid (ILookupRecord.id r)
                       ∈ (list_to_set (map (fun x => normalizeGuid (ILookupRecord.id x)) selected)
                          : gset string))))
    newRecords
  = List.filter (fun r => negb (isRecordSelected (ILookupRecord.id r) selected)) newRecords.
Proof. apply List.filter_ext. intros r. by rewrite existingIds_isRecordSelected. Qed.

Lemma positiveMax_positive m : (0 < m)%Z -> positiveMax (Some m) = Some m.
Proof.
  intros H. unfold positiveMax.
  destruct (Z.eqb_spec m 0); [lia|]. destruct (Z.ltb_spec 0 m); [done | lia].
Qed.

(** ** The claims about user mutations *)

(** C9: removing the same identifier a second time changes neither the
    selection, nor the serialized bound value, nor the display-name output,
    nor the last observed value, nor the error state, which is clear after
    either call; when the identifier is not selected at all, the first call
    already leaves the selection as it was.  No call raises. *)
Theorem handleRemoveRecord_idempotent (s : State) (recordId : string) :
  let once := handleRemoveRecord s recordId in
  let twice := handleRemoveRecord once recordId in
  selectedRecords twice = selectedRecords once
  /\ boundFieldValue twice = boundFieldValue once
  /\ recordNamesValue twice = recordNamesValue once
  /\ lastBoundValue twice = lastBoundValue once
  /\ errorMessage twice = errorMessage once
  /\ errorMessage once = None
  /\ (isRecordSelected recordId (selectedRecords s) = false ->
      selectedRecords once = selectedRecords s).
Proof.
  unfold handleRemoveRecord, serializeRecordNames. fields.
  rewrite removeRecordById_idem. repeat split.
  apply removeRecordById_absent.
Qed.

Lemma handleRemoveRecord_idempotent_witness :
  let entry := ILookupRecord.mk "11111111-1111-1111-1111-111111111111" "contact" "Jane Doe"
                 None None in
  selectedRecords
    (handleRemoveRecord (set_selectedRecords [entry] initial)
       "{22222222-2222-2222-2222-222222222222}")
  = [entry].
Proof.
  intros entry.
  exact (proj2 (proj2 (proj2 (proj2 (proj2 (proj2
           (handleRemoveRecord_idempotent (set_selectedRecords [entry] initial)
              "{22222222-2222-2222-2222-222222222222}"))))))
           eq_refl).
Defined.

(** C6: in multi-select mode with a positive maximum, [processLookupResults]
    appends to the selection the new records whose identifier is not already
    selected.  When the combined selection is longer than the maximum it
    keeps the first [maxSelections] entries, in order, and sets a message
    that states the maximum and the exact number of entries removed: the
    sentence is spelled out below, and the two numerals in it read back as
    the maximum and as the number of entries dropped from the combined
    selection.  Otherwise it keeps them all, drops none and leaves the
    message alone. *)
Theorem processLookupResults_multi_max (s : State) (results : list LookupValue.t) (m : Z) :
  maxSelections (context s) = Some m ->
  (0 < m)%Z ->
  let newRecords := map (toRecord (tableIconCache s)) results in
  let combined :=
    (selectedRecords s
     ++ List.filter (fun r => negb (isRecordSelected (ILookupRecord.id r) (selectedRecords s)))
                    newRecords)%list in
  let s' := processLookupResults s results true in
  let removed := Z.of_nat (length combined - length (selectedRecords s')) in
  (if (m <? Z.of_nat (length combined))%Z
   then selectedRecords s' = take (Z.to_nat m) combined
        /\ Z.of_nat (length (selectedRecords s')) = m
        /\ (0 < removed)%Z
        /\ errorMessage s'
           = Some ("Too many selections. Only the first " +:+ numberToString m +:+ " record"
                   +:+ (if (1 <? m)%Z then "s were" else " was") +:+ " retained ("
                   +:+ numberToString removed +:+ " removed).")
        /\ Z.of_int <$> NilZero.int_of_string (numberToString m) = Some m
        /\ Z.of_int <$> NilZero.int_of_string (numberToString removed) = Some removed
   else selectedRecords s' = combined /\ removed = 0%Z /\ errorMessage s' = errorMessage s)
  /\ boundFieldValue s' = serializeToBoundValue (selectedRecords s')
  /\ lastBoundValue s' = Some (boundFieldValue s')
  /\ stateVersion s' = (stateVersion s + 1)%Z.
Proof.
  intros Hmax Hpos newRecords combined. unfold processLookupResults.
  rewrite Hmax, (positiveMax_positive _ Hpos), uniqueNewRecords_eq.
  fold newRecords. fold combined.
  destruct (Z.ltb_spec m (Z.of_nat (length combined))) as [Hlt|Hle]; fields.
  - assert (length (take (Z.to_nat m) combined) = Z.to_nat m) as Hkept
      by (rewrite length_take; lia).
    rewrite Hkept.
    replace (Z.of_nat (length combined - Z.to_nat m)) with (Z.of_nat (length combined) - m)%Z
      by lia.
    repeat split; try apply numberToString_reads_back; lia.
  - rewrite Nat.sub_diag. repeat split.
Qed.

Lemma processLookupResults_multi_max_witness :
  let s := set_context (Build_Context None (Some "account,contact") (Some true) (Some 2%Z))
             initial in
  let first := LookupValue.mk "{AAAAAAAA-1111-1111-1111-111111111111}" (Some "Acme") "Account" in
  let second := LookupValue.mk "bbbbbbbb-2222-2222-2222-222222222222" (Some "Jane Doe") "contact" in
  let third := LookupValue.mk "cccccccc-3333-3333-3333-333333333333" None "contact" in
  let s' := processLookupResults s [first; second; third] true in
  selectedRecords s'
  = [ILookupRecord.mk "aaaaaaaa-1111-1111-1111-111111111111" "account" "Acme" None None;
     ILookupRecord.mk "bbbbbbbb-2222-2222-2222-222222222222" "contact" "Jane Doe" None None]
  /\ errorMessage s'
     = Some "Too many selections. Only the first 2 records were retained (1 removed).".
Proof.
  intros s first second third s'.
  pose proof (processLookupResults_multi_max s [first; second; third] 2%Z eq_refl eq_refl) as H.
  destruct H as [H _]. vm_compute in H. destruct H as (Hsel & _ & _ & Herr & _).
  split; [exact Hsel | exact Herr].
Defined.

(** C5 at the failing input: the picker fails once, the user retries and
    picks a record; one event later the selection holds the record and the
    message of the failed attempt is still set, where [handleRemoveRecord]
    would have cleared it.  In general [processLookupResults] leaves the
    message as it was or replaces it by the too-many message; it never
    clears it. *)
Theorem stale_error_survives_add :
  let ctx := Build_Context None (Some "account") (Some true) None in
  let picked :=
    LookupValue.mk "{11111111-1111-1111-1111-111111111111}" (Some "Acme") "Account" in
  let failed := run [UpdateView ctx; LookupClick;
                     DialogSettles 0 (Throw (ErrObject (Some (CodeNum 500)) None None))] start in
  let added := run [LookupClick; DialogSettles 0 (Return (Some [picked]))] failed in
  errorMessage (control failed) = Some "Error opening lookup dialog"
  /\ selectedRecords (control failed) = []
  /\ selectedRecords (control added)
     = [ILookupRecord.mk "11111111-1111-1111-1111-111111111111" "account" "Acme" None None]
  /\ errorMessage (control added) = Some "Error opening lookup dialog"
  /\ errorMessage (handleRemoveRecord (control added) "11111111-1111-1111-1111-111111111111")
     = None
  /\ (forall s results multi,
        errorMessage (processLookupResults s results multi) = errorMessage s
        \/ exists maxSelections excessCount,
             errorMessage (processLookupResults s results multi)
             = Some (tooManyText maxSelections excessCount)).
Proof.
  do 5 (split; [vm_compute; reflexivity|]).
  intros s results multi. unfold processLookupResults.
  destruct multi; [|left; reflexivity].
  destruct (positiveMax _) as [m|]; [|left; reflexivity].
  destruct (_ <? _)%Z; [right; by eexists _, _ | left; reflexivity].
Qed.

Lemma loadInitialData_version s ctx :
  (stateVersion s <= stateVersion (fst (loadInitialData s ctx)) <= stateVersion s + 2)%Z.
Proof. unfold loadInitialData. branches; fields; lia. Qed.

Lemma loadInitialData_resume_version s p outcome :
  (stateVersion s <= stateVersion (fst (loadInitialData_resume s p outcome))
   <= stateVersion s + 3)%Z.
Proof.
  unfold loadInitialData_resume. destruct outcome as [result|error].
  - destruct (negb _).
    + pose proof (loadInitialData_version (set_isLoadingInProgress false s) (context s)).
      fields. lia.
    + destruct (hasDeletedRecords result); fields; lia.
  - fields. lia.
Qed.

Lemma processLookupResults_version s results multi :
  stateVersion (processLookupResults s results multi) = (stateVersion s + 1)%Z.
Proof. unfold processLookupResults. destruct multi; branches; fields; reflexivity. Qed.

Lemma step_version e w :
  (stateVersion (control w) <= stateVersion (control (step e w))
   <= stateVersion (control w) + 3)%Z.
Proof.
  destruct e as [ctx|i webAPI|outcome| |i lookupObjects|recordId| ]; unfold step.
  - unfold updateView.
    destruct (_ || _)%bool.
    + pose proof (loadInitialData_version (set_context ctx (control w)) ctx) as H.
      destruct (loadInitialData _ ctx) as [s' started]. fields. lia.
    + fields. lia.
  - destruct (loads w !! i) as [p|]; [|lia].
    pose proof (loadInitialData_resume_version (control w) p
                  (snd (retrieveAllRecords webAPI (parsedRecords p)))) as H.
    destruct (loadInitialData_resume _ _ _) as [s' restarted]. fields. lia.
  - destruct (iconLoads w); [lia|]. unfold loadTableIcons_resume.
    destruct outcome; fields; lia.
  - unfold handleLookupClick. branches; fields; lia.
  - destruct (dialogs w !! i) as [multi|]; [|lia]. fields.
    unfold handleLookupClick_resume. destruct (openLookupDialog lookupObjects) as [results|error].
    + destruct (0 <? _)%nat; [rewrite processLookupResults_version|]; lia.
    + destruct (isUserCancelledError error) as [[|]|]; simpl negb; cbv iota; fields; lia.
  - unfold handleRemoveRecord. fields. lia.
  - fields. lia.
Qed.

(** The bumps of [loadInitialData] up to its suspension: none when it
    returns at once, one for an empty value, one for the placeholders, and
    two, the second in the [finally] block, for a value without a valid
    segment. *)
Lemma loadInitialData_bumps s ctx :
  stateVersion (fst (loadInitialData s ctx))
  = (stateVersion s
     + if isLoadingInProgress s then 0
       else if (isEmpty (boundValueOf ctx) || isEmpty (trim (boundValueOf ctx)))%bool then 1
       else if (sameAsLast (boundValueOf ctx) (lastBoundValue s) && isInitialized s)%bool then 0
       else if (length (parseBoundValue (boundValueOf ctx)) =? 0)%nat then 2 else 1)%Z.
Proof. unfold loadInitialData. branches; fields; lia. Qed.

(** C7, as the code has it.  The counter starts at 0 and no event lowers
    it.  It counts the calls of [triggerRerender], each of which adds
    exactly 1, and not the mutations of the state.  An add and a removal
    call it once, and so does the observation of an empty value.  A load of
    a value that is not empty calls it once when it publishes its
    placeholders and once in its [finally] block when it ends, whether its
    results are committed, discarded or lost to an error; for a value
    without a valid segment both calls fall into the same turn, and a
    completion that finds a newer value adds the bumps of the load it
    restarts to its own.  A lookup click calls it when
    it refuses with a message, the picker's outcome when it adds records or
    reports a failure, the icon load when it succeeds.  [destroy] calls it
    not at all, and neither does an observation that starts no load.  No
    event adds more than 3. *)
Theorem stateVersion_counts_rerenders :
  stateVersion initial = 0%Z
  /\ (forall s, stateVersion (triggerRerender s) = (stateVersion s + 1)%Z)
  /\ (forall e w,
        (stateVersion (control w) <= stateVersion (control (step e w))
         <= stateVersion (control w) + 3)%Z)
  /\ (forall s ctx,
        stateVersion (fst (loadInitialData s ctx))
        = (stateVersion s
           + if isLoadingInProgress s then 0
             else if (isEmpty (boundValueOf ctx) || isEmpty (trim (boundValueOf ctx)))%bool
             then 1
             else if (sameAsLast (boundValueOf ctx) (lastBoundValue s) && isInitialized s)%bool
             then 0
             else if (length (parseBoundValue (boundValueOf ctx)) =? 0)%nat then 2 else 1)%Z)
  /\ (forall s p outcome,
        stateVersion (fst (loadInitialData_resume s p outcome))
        = match outcome with
          | Return _ =>
              if String.eqb (boundValueOf (context s)) (loadingValue p)
              then (stateVersion s + 1)%Z
              else (stateVersion
                      (fst (loadInitialData (set_isLoadingInProgress false s) (context s)))
                    + 1)%Z
          | Throw _ => (stateVersion s + 1)%Z
          end)
  /\ (forall s ctx,
        stateVersion (fst (fst (updateView s ctx)))
        = if (negb (isInitialized s)
              || negb (sameAsLast (boundValueOf ctx) (lastBoundValue s))
                 && negb (isLoadingInProgress s))%bool
          then stateVersion (fst (loadInitialData (set_context ctx s) ctx))
          else stateVersion s)
  /\ (forall s results multi,
        stateVersion (processLookupResults s results multi) = (stateVersion s + 1)%Z)
  /\ (forall s recordId,
        stateVersion (handleRemoveRecord s recordId) = (stateVersion s + 1)%Z)
  /\ (forall s,
        stateVersion (fst (handleLookupClick s))
        = (stateVersion s
           + match snd (handleLookupClick s) with
             | Some _ => 0
             | None => if isLoadingInProgress s then 0 else 1
             end)%Z)
  /\ (forall s multi outcome,
        stateVersion (handleLookupClick_resume s multi outcome)
        = (stateVersion s
           + match outcome with
             | Return [] => 0
             | Return (_ :: _) => 1
             | Throw error =>
                 match isUserCancelledError error with
                 | Return false => 1
                 | _ => 0
                 end
             end)%Z)
  /\ (forall s outcome,
        stateVersion (loadTableIcons_resume s outcome)
        = (stateVersion s + match outcome with Return _ => 1 | Throw _ => 0 end)%Z)
  /\ (forall s, stateVersion (destroy s) = stateVersion s).
Proof.
  split; [reflexivity|]. split; [reflexivity|]. split; [exact step_version|].
  split; [exact loadInitialData_bumps|].
  split.
  { intros s p [result|error]; unfold loadInitialData_resume; [|fields; lia].
    destruct (String.eqb _ _); simpl negb; cbv iota; [|by fields].
    destruct (hasDeletedRecords result); fields; lia. }
  split. { intros s ctx. unfold updateView. fields. by destruct (_ || _)%bool. }
  split; [exact processLookupResults_version|].
  split. { intros s recordId. unfold handleRemoveRecord. fields. lia. }
  split.
  { intros s. unfold handleLookupClick. destruct (isLoadingInProgress s); [simpl; lia|].
    cbv zeta. destruct (positiveMax _) as [m|].
    - destruct (_ && _)%bool; [fields; lia|]. destruct (_ =? _)%nat; fields; lia.
    - destruct (_ =? _)%nat; fields; lia. }
  split.
  { intros s multi [[|first rest]|error]; unfold handleLookupClick_resume.
    - simpl. lia.
    - simpl Nat.ltb. cbv iota. apply processLookupResults_version.
    - destruct (isUserCancelledError error) as [[|]|]; simpl negb; cbv iota; fields; lia. }
  split. { intros s [cache|error]; unfold loadTableIcons_resume; fields; lia. }
  reflexivity.
Qed.

(** C7 as written fails.  [destroy] empties a selection that is on display
    and the version stays where it was: an observable mutation without a
    bump.  And a fresh control that observes a bound value without a valid
    segment shows what it showed before (no selection, no message, empty
    outputs), yet its version has gone from 0 to 2. *)
Lemma destroy_mutates_without_bump :
  let ctx := Build_Context (Some "11111111-1111-1111-1111-111111111111:contact")
               None None None in
  let store : WebApi := fun _ _ _ => Return (Some {["fullname" := "Jane Doe"]}) in
  let shown := run [UpdateView ctx; LoadSettles 0 store] start in
  let destroyed := step Destroy shown in
  let junk := step (UpdateView (Build_Context (Some "not-a-guid:account") None None None)) start in
  (selectedRecords (control shown)
   = [ILookupRecord.mk "11111111-1111-1111-1111-111111111111" "contact" "Jane Doe" None None]
   /\ selectedRecords (control destroyed) = []
   /\ stateVersion (control destroyed) = stateVersion (control shown))
  /\ (stateVersion (control start) = 0%Z
      /\ stateVersion (control junk) = 2%Z
      /\ selectedRecords (control junk) = selectedRecords (control start)
      /\ errorMessage (control junk) = errorMessage (control start)
      /\ boundFieldValue (control junk) = boundFieldValue (control start)
      /\ recordNamesValue (control junk) = recordNamesValue (control start)
      /\ loads junk = []).
Proof. vm_compute. repeat split; reflexivity. Qed.

(** ** Uniqueness of the selected identifiers *)

Lemma sublist_map {A B : Type} (f : A -> B) (l k : list A) :
  l `sublist_of` k -> map f l `sublist_of` map f k.
Proof. induction 1; simpl; by constructor. Qed.

Lemma sublist_List_filter {A : Type} (p : A -> bool) (l : list A) :
  List.filter p l `sublist_of` l.
Proof. induction l as [|x l IH]; simpl; [constructor|]. destruct (p x); by constructor. Qed.














(** ** The race between a load and a change of the bound value *)

Lemma sameAsLast_true a last : sameAsLast a last = true <-> last = Some a.
Proof.
  destruct last as [b|]; simpl; [|done]. rewrite String.eqb_eq. split; congruence.
Qed.

Lemma parse_nonempty_not_blank raw :
  parseBoundValue raw <> [] -> (isEmpty raw || isEmpty (trim raw))%bool = false.
Proof. unfold parseBoundValue. by destruct (_ || _)%bool. Qed.

Lemma stale_or_fresh s a :
  isInitialized s = false \/ lastBoundValue s <> Some a ->
  (sameAsLast a (lastBoundValue s) && isInitialized s)%bool = false.
Proof.
  intros [->|Hne]; [apply andb_false_r|].
  destruct (sameAsLast a (lastBoundValue s)) eqn:E; [|done].
  by apply sameAsLast_true in E.
Qed.

(** A load that finds references to resolve: placeholders, one bump, and
    the call suspended on the store. *)
Lemma loadInitialData_starts s ctx :
  isLoadingInProgress s = false ->
  isInitialized s = false \/ lastBoundValue s <> Some (boundValueOf ctx) ->
  parseBoundValue (boundValueOf ctx) <> [] ->
  loadInitialData s ctx
  = (triggerRerender
       (set_isInitialized true
          (set_selectedRecords (map placeholder (parseBoundValue (boundValueOf ctx)))
             (set_errorMessage None
                (set_isLoadingInProgress true
                   (set_lastBoundValue (Some (boundValueOf ctx)) s))))),
     Some (Build_PendingLoad (boundValueOf ctx) (parseBoundValue (boundValueOf ctx)))).
Proof.
  intros Hidle Hnew Hrefs. unfold loadInitialData.
  rewrite Hidle, (parse_nonempty_not_blank _ Hrefs), (stale_or_fresh _ _ Hnew).
  by destruct (parseBoundValue (boundValueOf ctx)).
Qed.

(** A load that finds nothing to resolve: the selection is cleared and
    nothing is suspended. *)
Lemma loadInitialData_nothing s ctx :
  isLoadingInProgress s = false ->
  isInitialized s = false \/ lastBoundValue s <> Some (boundValueOf ctx) ->
  parseBoundValue (boundValueOf ctx) = [] ->
  selectedRecords (fst (loadInitialData s ctx)) = []
  /\ snd (loadInitialData s ctx) = None
  /\ context (fst (loadInitialData s ctx)) = context s.
Proof.
  intros Hidle Hnew Hrefs. unfold loadInitialData.
  rewrite Hidle, (stale_or_fresh _ _ Hnew), Hrefs.
  destruct (_ || _)%bool; fields; done.
Qed.

(** While a load is in flight, observing a bound value only records the
    context handed in. *)
Lemma updateView_while_loading s ctx :
  isInitialized s = true -> isLoadingInProgress s = true ->
  fst (updateView s ctx) = (set_context ctx s, None).
Proof.
  intros Hinit Hbusy. unfold updateView. fields. rewrite Hinit, Hbusy.
  by rewrite andb_false_r.
Qed.

Lemma step_observe_while_loading w ctx :
  isInitialized (control w) = true -> isLoadingInProgress (control w) = true ->
  control (step (UpdateView ctx) w) = set_context ctx (control w)
  /\ loads (step (UpdateView ctx) w) = loads w.
Proof.
  intros Hinit Hbusy. unfold step.
  pose proof (updateView_while_loading (control w) ctx Hinit Hbusy) as H.
  destruct (updateView (control w) ctx) as [[s' started] icons]. simpl in H.
  injection H as -> ->. fields. simpl. by rewrite app_nil_r.
Qed.

Lemma run_cons e es w : run (e :: es) w = run es (step e w).
Proof. reflexivity. Qed.

Lemma observe_while_loading (ctxs : list Context) (last : Context) (w : World) :
  isInitialized (control w) = true -> isLoadingInProgress (control w) = true ->
  control (run (map UpdateView (ctxs ++ [last])) w) = set_context last (control w)
  /\ loads (run (map UpdateView (ctxs ++ [last])) w) = loads w.
Proof.
  revert w. induction ctxs as [|c cs IH]; intros w Hinit Hbusy;
    cbn [map app]; rewrite run_cons.
  - by apply step_observe_while_loading.
  - destruct (step_observe_while_loading w c Hinit Hbusy) as [H1 H2].
    destruct (IH (step (UpdateView c) w)) as [H3 H4].
    + by rewrite H1.
    + by rewrite H1.
    + by rewrite H3, H4, H1, H2.
Qed.

Lemma settle_succ fuel webAPI w :
  settle (S fuel) webAPI w
  = match loads w with
    | [] => w
    | _ :: _ => settle fuel webAPI (step (LoadSettles 0 webAPI) w)
    end.
Proof. reflexivity. Qed.

Lemma settle_done fuel webAPI w : loads w = [] -> settle fuel webAPI w = w.
Proof. intros H. destruct fuel; simpl; [done|]. by rewrite H. Qed.

(** A load that completes while the bound value is still the one it was
    started for commits the resolved entries. *)
Lemma loadInitialData_resume_commits s p result :
  boundValueOf (context s) = loadingValue p ->
  selectedRecords (fst (loadInitialData_resume s p (Return result))) = validRecords result
  /\ snd (loadInitialData_resume s p (Return result)) = None.
Proof.
  intros Hsame. unfold loadInitialData_resume. rewrite Hsame, String.eqb_refl. simpl negb.
  cbv iota. destruct (hasDeletedRecords result); fields; done.
Qed.

(** A completion that finds another bound value than the one it was started
    for, and not the one recorded as last observed: its results are
    discarded, the selection becomes the placeholders of the current value,
    and a load of that value is suspended if it names any reference. *)
Lemma loadInitialData_resume_stale s p result :
  boundValueOf (context s) <> loadingValue p ->
  isInitialized s = false \/ lastBoundValue s <> Some (boundValueOf (context s)) ->
  let current := boundValueOf (context s) in
  let resumed := loadInitialData_resume s p (Return result) in
  selectedRecords (fst resumed) = map placeholder (parseBoundValue current)
  /\ snd resumed = match parseBoundValue current with
                   | [] => None
                   | _ :: _ => Some (Build_PendingLoad current (parseBoundValue current))
                   end
  /\ context (fst resumed) = context s.
Proof.
  intros Hchanged Hlast current resumed. unfold resumed, loadInitialData_resume.
  fold current. destruct (String.eqb_spec current (loadingValue p)) as [Heq|_]; [done|].
  simpl negb. cbv iota.
  assert (isLoadingInProgress (set_isLoadingInProgress false s) = false) as Hidle by done.
  assert (isInitialized (set_isLoadingInProgress false s) = false
          \/ lastBoundValue (set_isLoadingInProgress false s) <> Some (boundValueOf (context s)))
    as Hnew by exact Hlast.
  destruct (parseBoundValue current) as [|r rs] eqn:Hrefs.
  - destruct (loadInitialData_nothing _ (context s) Hidle Hnew Hrefs) as (H1 & H2 & H3).
    fields. by rewrite H1, H2, H3.
  - assert (parseBoundValue (boundValueOf (context s)) <> []) as Hne
      by (fold current; by rewrite Hrefs).
    cbv zeta. fields.
    rewrite (loadInitialData_starts (set_isLoadingInProgress false s) (context s)
               eq_refl Hnew Hne).
    fold current. fields.
    by rewrite Hrefs.
Qed.

Lemma step_load_settles w p rest webAPI result :
  loads w = p :: rest ->
  snd (retrieveAllRecords webAPI (parsedRecords p)) = Return result ->
  control (step (LoadSettles 0 webAPI) w)
  = fst (loadInitialData_resume (control w) p (Return result))
  /\ loads (step (LoadSettles 0 webAPI) w)
     = (rest ++ option_list (snd (loadInitialData_resume (control w) p (Return result))))%list.
Proof.
  intros Hloads Hret. unfold step. rewrite Hloads. simpl lookup. cbv iota. rewrite Hret.
  by destruct (loadInitialData_resume _ _ _).
Qed.

(** ** The race between a load and a change of the bound value *)

(** The schedule on which the restart does what it is meant to: a load of
    the value A is started; while its resolution is in flight the bound
    value is observed to change, any number of times, the newest observed
    value being B; nothing else happens, and no lookup raises.  When the
    resolution of A completes its results are discarded, the selection holds
    the placeholders of B, and once the resolution of B has settled the
    selection is the resolution of B. *)
Lemma stale_load_restarts (s0 : State) (dlg : list bool) (icons : nat)
    (ctxA ctxB : Context) (later : list Context) (storeA storeB : WebApi) :
  isLoadingInProgress s0 = false ->
  isInitialized s0 = false \/ lastBoundValue s0 <> Some (boundValueOf ctxA) ->
  parseBoundValue (boundValueOf ctxA) <> [] ->
  boundValueOf ctxB <> boundValueOf ctxA ->
  firstRaised storeA (parseBoundValue (boundValueOf ctxA)) = None ->
  firstRaised storeB (parseBoundValue (boundValueOf ctxB)) = None ->
  let A := boundValueOf ctxA in
  let B := boundValueOf ctxB in
  let started := step (UpdateView ctxA) (Build_World s0 [] dlg icons) in
  let changed := run (map UpdateView (later ++ [ctxB])) started in
  let completed := step (LoadSettles 0 storeA) changed in
  (loads changed = [Build_PendingLoad A (parseBoundValue A)]
   /\ selectedRecords (control changed) = map placeholder (parseBoundValue A))
  /\ (selectedRecords (control completed) = map placeholder (parseBoundValue B)
      /\ loads completed = match parseBoundValue B with
                           | [] => []
                           | _ :: _ => [Build_PendingLoad B (parseBoundValue B)]
                           end)
  /\ (forall fuel, (1 <= fuel)%nat ->
        loads (settle fuel storeB completed) = []
        /\ selectedRecords (control (settle fuel storeB completed)) = resolution storeB B).
Proof.
  intros Hidle Hnew HrefsA Hchange HraiseA HraiseB A B started changed completed.
  (* the load of A starts *)
  assert (control started
          = triggerRerender
              (set_isInitialized true
                 (set_selectedRecords (map placeholder (parseBoundValue A))
                    (set_errorMessage None
                       (set_isLoadingInProgress true
                          (set_lastBoundValue (Some A) (set_context ctxA s0))))))
          /\ loads started = [Build_PendingLoad A (parseBoundValue A)]) as [Hs1 Hl1].
  { unfold started, step, updateView. fields.
    assert ((negb (isInitialized s0)
             || negb (sameAsLast (boundValueOf ctxA) (lastBoundValue s0))
                && negb (isLoadingInProgress s0))%bool = true) as ->.
    { rewrite Hidle. destruct Hnew as [->|Hne]; [done|].
      destruct (sameAsLast _ _) eqn:E; [by apply sameAsLast_true in E|].
      by rewrite orb_true_r. }
    rewrite (loadInitialData_starts (set_context ctxA s0) ctxA Hidle Hnew HrefsA).
    fields. done. }
  (* the value changes while it is in flight *)
  destruct (observe_while_loading later ctxB started) as [Hs2 Hl2];
    [by rewrite Hs1 | by rewrite Hs1 |].
  fold changed in Hs2, Hl2. rewrite Hl1 in Hl2.
  split. { split; [done|]. by rewrite Hs2, Hs1. }
  (* the resolution of A completes *)
  assert (boundValueOf (context (control changed)) = B) as HctxB by (by rewrite Hs2).
  destruct (retrieveAllRecords_returns storeA (parseBoundValue A) HraiseA)
    as (resultA & HretA & _).
  pose proof (loadInitialData_resume_stale (control changed)
                (Build_PendingLoad A (parseBoundValue A)) resultA) as Hstale.
  rewrite HctxB in Hstale. destruct Hstale as (Hsel3 & Hpend3 & Hctx3).
  { exact Hchange. }
  { right. rewrite Hs2, Hs1. fields. intros [= Heq]. apply Hchange. by symmetry. }
  destruct (step_load_settles changed _ _ storeA resultA Hl2 HretA) as [Hs3 Hl3].
  fold completed in Hs3, Hl3. rewrite app_nil_l in Hl3.
  assert (loads completed = match parseBoundValue B with
                            | [] => []
                            | _ :: _ => [Build_PendingLoad B (parseBoundValue B)]
                            end) as Hl3'.
  { rewrite Hl3, Hpend3. by destruct (parseBoundValue B). }
  split. { split; [by rewrite Hs3 | exact Hl3']. }
  (* every resolution settles *)
  assert (resolution storeB B = omap (recordOf storeB) (parseBoundValue B)) as HresB
    by exact (resolution_eq _ _ HraiseB).
  intros fuel Hfuel. destruct fuel as [|fuel]; [lia|]. rewrite settle_succ.
  assert (parseBoundValue B = [] \/ parseBoundValue B <> []) as [HrefsB|HrefsB]
    by (destruct (parseBoundValue B); [by left | by right]).
  - rewrite HrefsB in Hl3'. rewrite Hl3'. split; [done|].
    rewrite Hs3, Hsel3, HresB. by rewrite HrefsB.
  - assert (loads completed = [Build_PendingLoad B (parseBoundValue B)]) as Hl3''
      by (rewrite Hl3'; by destruct (parseBoundValue B)).
    rewrite Hl3''.
    destruct (retrieveAllRecords_returns storeB (parseBoundValue B) HraiseB)
      as (resultB & HretB & HvalB).
    destruct (loadInitialData_resume_commits (control completed)
                (Build_PendingLoad B (parseBoundValue B)) resultB) as [Hsel4 Hpend4].
    { rewrite Hs3, Hctx3. exact HctxB. }
    destruct (step_load_settles completed _ _ storeB resultB Hl3'' HretB) as [Hs4 Hl4].
    rewrite Hpend4 in Hl4. change (loads (step (LoadSettles 0 storeB) completed) = []) in Hl4.
    rewrite (settle_done _ _ _ Hl4). split; [done|].
    rewrite Hs4, Hsel4, HvalB, HresB. done.
Qed.

Lemma stale_load_restarts_witness :
  let ctxA := Build_Context
                (Some "11111111-1111-1111-1111-111111111111:contact;22222222-2222-2222-2222-222222222222:account")
                None None None in
  let ctxC := Build_Context (Some "44444444-4444-4444-4444-444444444444:lead") None None None in
  let ctxB := Build_Context (Some "{33333333-3333-3333-3333-333333333333}:Contact") None None None in
  let storeA : WebApi := fun _ _ _ => Return (Some {["name" := "Stale"]}) in
  let storeB : WebApi := fun _ _ _ => Return (Some {["fullname" := "Jane Doe"]}) in
  let started := step (UpdateView ctxA) (Build_World initial [] [] 0) in
  let changed := run (map UpdateView ([ctxC] ++ [ctxB])) started in
  let completed := step (LoadSettles 0 storeA) changed in
  selectedRecords (control completed)
  = [ILookupRecord.mk "33333333-3333-3333-3333-333333333333" "contact" "Loading..." None
       (Some true)]
  /\ selectedRecords (control (settle 1 storeB completed))
     = [ILookupRecord.mk "33333333-3333-3333-3333-333333333333" "contact" "Jane Doe" None None].
Proof.
  intros ctxA ctxC ctxB storeA storeB.
  assert (parseBoundValue (boundValueOf ctxA) <> []) as HrefsA by (vm_compute; discriminate).
  assert (boundValueOf ctxB <> boundValueOf ctxA) as Hchange by (vm_compute; discriminate).
  assert (firstRaised storeA (parseBoundValue (boundValueOf ctxA)) = None) as HraiseA
    by (vm_compute; reflexivity).
  assert (firstRaised storeB (parseBoundValue (boundValueOf ctxB)) = None) as HraiseB
    by (vm_compute; reflexivity).
  pose proof (stale_load_restarts initial [] 0 ctxA ctxB [ctxC] storeA storeB
                eq_refl (or_introl eq_refl) HrefsA Hchange HraiseA HraiseB) as H.
  cbv zeta in H |- *. destruct H as (_ & [Hsel _] & Hsettled).
  destruct (Hsettled 1%nat (le_n 1)) as [_ Hfinal].
  rewrite Hsel, Hfinal. split; vm_compute; reflexivity.
Defined.

(** ** The claim about the race *)

(** C1 at the failing input.  The bound value changes from A to B while the
    resolution of A is in flight.  When that resolution completes the load of
    B is restarted and the placeholder of B is shown, but the [finally] block
    of the completing call clears [isLoadingInProgress] after the restart has
    set it: the resolution of B is in flight with the flag down.  The lookup
    click, which the flag is there to hold back, goes through; the record
    picked is appended to the placeholder and the two are written to the
    bound value together.  The host hands that value back; the resolution of
    B, when it completes, finds another value than its own, restarts nothing
    because the value is the one recorded as last observed, and drops its
    results.  No resolution and no picker is in flight any more and the
    selection keeps a pending placeholder for good: it is neither the
    resolution of B nor that of the value observed last. *)
Theorem stale_restart_strands_placeholder :
  let observe value :=
    UpdateView (Build_Context (Some value) (Some "account,contact") (Some true) None) in
  let A := "11111111-1111-1111-1111-111111111111:contact" in
  let B := "22222222-2222-2222-2222-222222222222:account" in
  let store : WebApi := fun _ _ _ => Return (Some {["name" := "Resolved"]}) in
  let picked :=
    LookupValue.mk "33333333-3333-3333-3333-333333333333" (Some "Picked") "contact" in
  let restarted := run [observe A; observe B; LoadSettles 0 store] start in
  let added := run [LookupClick; DialogSettles 0 (Return (Some [picked]))] restarted in
  let written := boundFieldValue (control added) in
  let final := run [observe written; LoadSettles 0 store] added in
  (loads restarted = [Build_PendingLoad B (parseBoundValue B)]
   /\ isLoadingInProgress (control restarted) = false
   /\ selectedRecords (control restarted) = map placeholder (parseBoundValue B))
  /\ (dialogs (step LookupClick restarted) = [true]
      /\ written
         = "22222222-2222-2222-2222-222222222222:account;33333333-3333-3333-3333-333333333333:contact"
      /\ outputChanges (control added) = 1%nat)
  /\ (loads final = [] /\ dialogs final = []
      /\ selectedRecords (control final)
         = [ILookupRecord.mk "22222222-2222-2222-2222-222222222222" "account" "Loading..."
              None (Some true);
            ILookupRecord.mk "33333333-3333-3333-3333-333333333333" "contact" "Picked"
              None None]
      /\ boundValueOf (context (control final)) = written
      /\ selectedRecords (control final) <> resolution store written
      /\ selectedRecords (control final) <> resolution store B
      /\ forall fuel, settle fuel store final = final).
Proof.
  cbv zeta.
  split; [repeat split; vm_compute; reflexivity|].
  split; [repeat split; vm_compute; reflexivity|].
  do 4 (split; [vm_compute; reflexivity|]).
  do 2 (split; [vm_compute; discriminate|]).
  intros fuel. apply settle_done. vm_compute. reflexivity.
Qed.

(** New records are compared with the selection, not with each other. *)
Example add_keeps_duplicates_of_one_pick :
  let picked :=
    LookupValue.mk "{11111111-1111-1111-1111-111111111111}" (Some "Acme") "Account" in
  selectionIds (processLookupResults initial [picked; picked] true)
  = ["11111111-1111-1111-1111-111111111111"; "11111111-1111-1111-1111-111111111111"].
Proof. vm_compute. reflexivity. Qed.

End ControlFacts.

(** * Further facts about the codec and the functions around it *)
Module CodecRestFacts.
Import Js Codec CodecRest Spec SpecRest JsFacts CodecFacts.

Lemma isWhiteSpace_lowerChar c : isWhiteSpace (lowerChar c) = isWhiteSpace c.
Proof. by_code_points c. Qed.

Lemma semicolon_lowerChar c : Ascii.eqb (lowerChar c) ";" = Ascii.eqb c ";".
Proof. by_code_points c. Qed.

Lemma comma_lowerChar c : Ascii.eqb (lowerChar c) "," = Ascii.eqb c ",".
Proof. by_code_points c. Qed.

Lemma guidChar_not_semicolon c : guidChar c = true -> negb (Ascii.eqb c ";") = true.
Proof. by_code_points c. Qed.

Lemma trimStart_toLowerCase s : trimStart (toLowerCase s) = toLowerCase (trimStart s).
Proof.
  induction s as [|c r IH]; simpl; [done|]. rewrite isWhiteSpace_lowerChar.
  by destruct (isWhiteSpace c).
Qed.

Lemma trimEnd_toLowerCase s : trimEnd (toLowerCase s) = toLowerCase (trimEnd s).
Proof.
  induction s as [|c r IH]; simpl; [done|]. rewrite IH, isWhiteSpace_lowerChar.
  destruct (trimEnd r); simpl; [by destruct (isWhiteSpace c) | done].
Qed.

Lemma trim_toLowerCase s : trim (toLowerCase s) = toLowerCase (trim s).
Proof. unfold trim. by rewrite trimStart_toLowerCase, trimEnd_toLowerCase. Qed.

Lemma allChars_toLowerCase p s :
  (forall c, p (lowerChar c) = p c) -> allChars p (toLowerCase s) = allChars p s.
Proof. intros Hp. induction s as [|c r IH]; simpl; [done|]. by rewrite Hp, IH. Qed.

Lemma allChars_trimStart p s : allChars p s = true -> allChars p (trimStart s) = true.
Proof.
  induction s as [|c r IH]; simpl; [done|]. rewrite andb_true_iff. intros [Hc Hr].
  destruct (isWhiteSpace c); [by apply IH|]. simpl. by rewrite Hc, Hr.
Qed.

Lemma allChars_trimEnd p s : allChars p s = true -> allChars p (trimEnd s) = true.
Proof.
  induction s as [|c r IH]; simpl; [done|]. rewrite andb_true_iff. intros [Hc Hr].
  specialize (IH Hr). destruct (trimEnd r); simpl.
  - destruct (isWhiteSpace c); simpl; [done | by rewrite Hc].
  - simpl in IH. by rewrite Hc, IH.
Qed.

Lemma allChars_trim p s : allChars p s = true -> allChars p (trim s) = true.
Proof. intros H. by apply allChars_trimEnd, allChars_trimStart. Qed.

(** Splitting what was joined gives the pieces back, when no piece holds
    the separator. *)
Lemma split_join sep (pieces : list string) :
  pieces <> [] ->
  Forall (fun piece => allChars (fun c => negb (Ascii.eqb c sep)) piece = true) pieces ->
  split sep (join (String sep EmptyString) pieces) = pieces.
Proof.
  intros Hne Hall. induction Hall as [|p rest Hp Hrest IH]; [done|].
  destruct rest as [|q rest'].
  - simpl. by apply split_no_sep.
  - change (join (String sep "") (p :: q :: rest'))
      with (p +:+ String sep "" +:+ join (String sep "") (q :: rest')).
    str_simpl. rewrite (split_app _ _ _ Hp). f_equal. by apply IH.
Qed.

Lemma join_blank_head sep p rest :
  allChars isWhiteSpace (join sep (p :: rest)) = true -> allChars isWhiteSpace p = true.
Proof.
  destruct rest as [|q rest']; simpl; [done|].
  rewrite allChars_app, andb_true_iff. tauto.
Qed.

Lemma isValidGuid_normalizeGuid v : isValidGuid v = true -> isValidGuid (normalizeGuid v) = true.
Proof.
  intros H. pose proof (normalizeGuid_canonical _ H) as Hc.
  unfold isCanonicalGuid in Hc. apply andb_true_iff in Hc. destruct Hc as [Hre _].
  unfold isValidGuid. destruct (isEmpty (normalizeGuid v)) eqn:E.
  - apply isEmpty_true in E. by rewrite E in Hre.
  - rewrite normalizeGuid_eq, removeBraces_toLowerCase, removeBraces_idem.
    by rewrite <- normalizeGuid_eq.
Qed.

Lemma segment_no_semicolon identifier type :
  isValidGuid identifier = true ->
  allChars (fun c => negb (Ascii.eqb c ";")) type = true ->
  allChars (fun c => negb (Ascii.eqb c ";")) (segmentText identifier type) = true.
Proof.
  intros Hv Ht. unfold segmentText. rewrite !allChars_app, Ht.
  rewrite (allChars_impl _ _ _ guidChar_not_semicolon (isValidGuid_chars _ Hv)). done.
Qed.

(** What the codec writes for well-formed entries, it reads back. *)
Lemma parse_serialized (records : list ILookupRecord.t) :
  Forall wellFormedEntry records ->
  parseBoundValue (serializeToBoundValue records) = map refOf records.
Proof.
  intros Hwf. destruct records as [|r0 rest] eqn:Erecords; [done|]. rewrite <- Erecords in *.
  assert (records <> []) as Hne by (by rewrite Erecords). clear Erecords r0 rest.
  set (segments := map (fun r => (normalizeGuid (ILookupRecord.id r),
                                  toLowerCase (ILookupRecord.table r))) records).
  assert (serializeToBoundValue records
          = join ";" (map (fun seg => segmentText (fst seg) (snd seg)) segments)) as ->.
  { rewrite serializeToBoundValue_map. unfold segments. by rewrite map_map. }
  assert (Forall (fun seg => isValidGuid (fst seg) = true /\ isEmpty (trim (snd seg)) = false)
                 segments) as Hvalid.
  { unfold segments. apply List.Forall_map. eapply List.Forall_impl; [|exact Hwf].
    intros r (Hv & Ht & _). simpl. split; [by apply isValidGuid_normalizeGuid|].
    rewrite trim_toLowerCase. destruct (trim (ILookupRecord.table r)); done. }
  rewrite parseBoundValue_parse. unfold parse. rewrite split_join.
  - rewrite (parse_valid_segments _ Hvalid). unfold segments. rewrite map_map.
    apply map_ext. intros r. unfold refOf. simpl.
    by rewrite normalizeGuid_idem, trim_toLowerCase, toLowerCase_idem.
  - unfold segments. by destruct records.
  - unfold segments. rewrite map_map. apply List.Forall_map.
    eapply List.Forall_impl; [|exact Hwf]. intros r (Hv & _ & Hs). simpl.
    apply segment_no_semicolon; [by apply isValidGuid_normalizeGuid|].
    by rewrite allChars_toLowerCase by (intros c; by rewrite semicolon_lowerChar).
Qed.

(** What a segment without a semicolon contributes is well formed and
    already in the form it is read back in. *)
Lemma parseSegment_wellFormed (toEntry : IParsedRecord.t -> ILookupRecord.t) segment record :
  (forall p, ILookupRecord.id (toEntry p) = IParsedRecord.id p
             /\ ILookupRecord.table (toEntry p) = IParsedRecord.table p) ->
  allChars (fun c => negb (Ascii.eqb c ";")) segment = true ->
  parseSegment segment = Some record ->
  wellFormedEntry (toEntry record) /\ refOf (toEntry record) = record.
Proof.
  intros Hentry Hseg. unfold parseSegment, splitSegment.
  destruct (indexOf ":" segment) as [i|]; [|done].
  set (identifier := trim (substring 0 i segment)).
  set (type := trim (substringFrom (i + 1) segment)).
  destruct (isValidGuid identifier) eqn:Hv; [|done].
  destruct (isEmpty type) eqn:Ht; [done|]. simpl. intros [= <-].
  assert (trim (toLowerCase type) = toLowerCase type) as Htrim.
  { rewrite trim_toLowerCase. unfold type. by rewrite trim_idem. }
  unfold wellFormedEntry, refOf.
  destruct (Hentry (IParsedRecord.mk (normalizeGuid identifier) (toLowerCase type)))
    as [-> ->]. simpl. rewrite Htrim, normalizeGuid_idem, toLowerCase_idem.
  split; [|done]. split; [by apply isValidGuid_normalizeGuid|]. split.
  - by destruct type.
  - rewrite allChars_toLowerCase by (intros c; by rewrite semicolon_lowerChar).
    unfold type, substringFrom. by apply allChars_trim, allChars_strDrop.
Qed.

Lemma parse_wellFormed (toEntry : IParsedRecord.t -> ILookupRecord.t) raw :
  (forall p, ILookupRecord.id (toEntry p) = IParsedRecord.id p
             /\ ILookupRecord.table (toEntry p) = IParsedRecord.table p) ->
  Forall wellFormedEntry (map toEntry (parse raw))
  /\ map refOf (map toEntry (parse raw)) = parse raw.
Proof.
  intros Hentry. unfold parse. pose proof (split_pieces ";" raw) as Hpieces.
  induction Hpieces as [|g gs Hg _ IH]; simpl; [by split|].
  destruct (isEmpty g); simpl; [exact IH|].
  destruct (parseSegment g) as [record|] eqn:E; [|exact IH].
  destruct (parseSegment_wellFormed toEntry g record Hentry Hg E) as [Hwf Href].
  destruct IH as [IH1 IH2]. simpl. split; [by constructor|]. rewrite Href. f_equal. exact IH2.
Qed.

(** ** Properties of the codec *)

(** X1: for entries with an accepted identifier and a type that is not
    blank and holds no semicolon, parsing the serialized entries gives one
    reference per entry, in order: the normalized identifier with the
    trimmed lower-case type. *)
Theorem serialize_parse_roundtrip (records : list ILookupRecord.t) :
  Forall wellFormedEntry records ->
  parseBoundValue (serializeToBoundValue records) = map refOf records.
Proof. apply parse_serialized. Qed.

Lemma serialize_parse_roundtrip_witness :
  parseBoundValue
    (serializeToBoundValue
       [ILookupRecord.mk "{AAAAAAAA-1111-1111-1111-11111111111B}" "Account" "Acme" None None;
        ILookupRecord.mk "bbbbbbbb-2222-2222-2222-222222222222" " contact" "Jane" None None])
  = [IParsedRecord.mk "aaaaaaaa-1111-1111-1111-11111111111b" "account";
     IParsedRecord.mk "bbbbbbbb-2222-2222-2222-222222222222" "contact"].
Proof.
  refine (serialize_parse_roundtrip _ _).
  repeat (apply Forall_cons_2; [repeat split; vm_compute; reflexivity|]). apply Forall_nil_2.
Defined.

(** X2: the serialized form is a fixed point of the codec.  For any bound
    string, serializing the parsed references (under whatever display data)
    and parsing the result gives the same references; serializing again
    gives the same string. *)
Theorem canonical_form_is_stable
    (toEntry : IParsedRecord.t -> ILookupRecord.t) (raw : string) :
  (forall p, ILookupRecord.id (toEntry p) = IParsedRecord.id p
             /\ ILookupRecord.table (toEntry p) = IParsedRecord.table p) ->
  let written := serializeToBoundValue (map toEntry (parseBoundValue raw)) in
  parseBoundValue written = parseBoundValue raw
  /\ serializeToBoundValue (map toEntry (parseBoundValue written)) = written.
Proof.
  intros Hentry written.
  assert (parseBoundValue written = parseBoundValue raw) as H.
  { unfold written. rewrite (parseBoundValue_parse raw).
    destruct (parse_wellFormed toEntry raw Hentry) as [Hwf Href].
    by rewrite (parse_serialized _ Hwf). }
  split; [exact H|]. by rewrite H.
Qed.

Lemma canonical_form_is_stable_witness :
  parseBoundValue
    (serializeToBoundValue
       (map Control.placeholder
          (parseBoundValue " {AAAAAAAA-1111-1111-1111-11111111111B} : Account ;;junk;x:y")))
  = parseBoundValue " {AAAAAAAA-1111-1111-1111-11111111111B} : Account ;;junk;x:y".
Proof.
  refine (proj1 (canonical_form_is_stable Control.placeholder _ _)).
  intros p. split; reflexivity.
Defined.

(** ** [parseLookupTables] *)

Lemma toLowerCase_nonempty s : s <> EmptyString -> toLowerCase s <> EmptyString.
Proof. by destruct s. Qed.

Lemma parseLookupTables_normal tablesString : Forall normalTable (parseLookupTables tablesString).
Proof.
  unfold parseLookupTables. destruct (_ || _)%bool; [constructor|].
  pose proof (split_pieces "," tablesString) as Hpieces.
  induction Hpieces as [|g gs Hg _ IH]; simpl; [constructor|].
  destruct (toLowerCase (trim g)) as [|c r] eqn:E; simpl; [exact IH|].
  constructor; [|exact IH]. rewrite <- E. split; [by rewrite E|].
  split; [apply toLowerCase_idem|]. split.
  - by rewrite trim_toLowerCase, trim_idem.
  - rewrite allChars_toLowerCase by (intros d; by rewrite comma_lowerChar).
    by apply allChars_trim.
Qed.

Lemma parseLookupTables_join (tables : list string) :
  Forall normalTable tables -> parseLookupTables (join "," tables) = tables.
Proof.
  intros Hnormal. destruct tables as [|t0 rest] eqn:Et; [done|]. rewrite <- Et in *.
  assert (tables <> []) as Hne by (by rewrite Et).
  unfold parseLookupTables.
  assert ((isEmpty (join "," tables) || isEmpty (trim (join "," tables)))%bool = false) as ->.
  { apply orb_false_iff.
    assert (isEmpty (trim (join "," tables)) = false) as Hblank.
    { destruct (isEmpty (trim (join "," tables))) eqn:E; [|done].
      apply isEmpty_true, trim_empty in E. rewrite Et in E, Hnormal.
      apply join_blank_head, trim_empty in E.
      inversion Hnormal as [|? ? (Hn & _ & Htrim & _) _]; subst. congruence. }
    split; [|exact Hblank]. by destruct (join "," tables). }
  rewrite split_join; [|done|].
  - clear Hne Et t0 rest. induction Hnormal as [|t ts (Hn & Hl & Htrim & _) _ IH]; [done|].
    simpl. rewrite Htrim, Hl. destruct t; [done|]. simpl. f_equal. exact IH.
  - eapply List.Forall_impl; [|exact Hnormal]. by intros t (_ & _ & _ & Hc).
Qed.

(** X3: every table name [parseLookupTables] emits is non-empty, lower
    case, trimmed and free of commas; and a list of such names, joined with
    commas, parses back to itself. *)
Theorem parseLookupTables_roundtrip :
  (forall tablesString, Forall normalTable (parseLookupTables tablesString))
  /\ (forall tables, Forall normalTable tables -> parseLookupTables (join "," tables) = tables).
Proof. split; [exact parseLookupTables_normal | exact parseLookupTables_join]. Qed.

Lemma parseLookupTables_roundtrip_witness :
  parseLookupTables (join "," (parseLookupTables " Account, ,CONTACT ,lead"))
  = ["account"; "contact"; "lead"].
Proof.
  refine (proj2 parseLookupTables_roundtrip ["account"; "contact"; "lead"] _).
  repeat (apply Forall_cons_2; [repeat split; (discriminate || vm_compute; reflexivity)|]).
  apply Forall_nil_2.
Defined.

(** ** [isRecordSelected] and [removeRecordById] *)

(** X4: after [removeRecordById], an identifier is selected exactly when it
    was selected before and does not normalize to the removed one: the
    removed identifier is gone in every spelling, every other one is
    untouched. *)
Theorem isRecordSelected_after_remove (lookedUp removed : string)
    (selectedRecords : list ILookupRecord.t) :
  isRecordSelected lookedUp (removeRecordById removed selectedRecords)
  = (isRecordSelected lookedUp selectedRecords
     && negb (String.eqb (normalizeGuid lookedUp) (normalizeGuid removed)))%bool.
Proof.
  unfold isRecordSelected, removeRecordById.
  induction selectedRecords as [|r l IH]; simpl; [done|].
  destruct (String.eqb_spec (normalizeGuid (ILookupRecord.id r)) (normalizeGuid removed))
    as [Hr|Hr]; simpl.
  - rewrite IH. destruct (String.eqb_spec (normalizeGuid (ILookupRecord.id r))
                            (normalizeGuid lookedUp)) as [Hl|Hl]; simpl; [|done].
    rewrite <- Hl, Hr, String.eqb_refl. simpl. by rewrite andb_false_r.
  - rewrite IH. destruct (String.eqb_spec (normalizeGuid (ILookupRecord.id r))
                            (normalizeGuid lookedUp)) as [Hl|Hl]; simpl; [|done].
    rewrite <- Hl. apply String.eqb_neq in Hr. by rewrite Hr.
Qed.

(** ** The exclusion filters *)

Lemma filter_nil_existsb {A : Type} (p : A -> bool) (l : list A) :
  (length (List.filter p l) =? 0)%nat = negb (existsb p l).
Proof. induction l as [|x l IH]; simpl; [done|]. by destruct (p x). Qed.

Lemma generateExclusionFilter_cases tableName selectedRecords :
  match generateExclusionFilter tableName selectedRecords with
  | Some filter =>
      hasSelected selectedRecords tableName = true
      /\ entityLogicalName filter = toLowerCase tableName
  | None => hasSelected selectedRecords tableName = false
  end.
Proof.
  unfold generateExclusionFilter, hasSelected. rewrite length_map, filter_nil_existsb.
  by destruct (existsb _ _).
Qed.

(** X5: [generateExclusionFilter] answers for a table exactly when some
    selected entry belongs to it, letter case ignored on both sides; the
    filter it gives is scoped to the lower-case table name, and the letter
    case the table name is asked in changes nothing. *)
Theorem generateExclusionFilter_scope (tableName : string)
    (selectedRecords : list ILookupRecord.t) :
  match generateExclusionFilter tableName selectedRecords with
  | Some filter =>
      hasSelected selectedRecords tableName = true
      /\ entityLogicalName filter = toLowerCase tableName
  | None => hasSelected selectedRecords tableName = false
  end
  /\ generateExclusionFilter (toLowerCase tableName) selectedRecords
     = generateExclusionFilter tableName selectedRecords
  /\ generateExclusionFilter tableName [] = None.
Proof.
  split; [apply generateExclusionFilter_cases|]. split; [|reflexivity].
  unfold generateExclusionFilter, getPrimaryKeyField. by rewrite !toLowerCase_idem.
Qed.

Lemma generateAllExclusionFilters_loop selectedRecords lookupTables filters :
  fold_left (pushFilter selectedRecords) lookupTables filters
  = (filters ++ omap (fun t => generateExclusionFilter t selectedRecords) lookupTables)%list.
Proof.
  revert filters. induction lookupTables as [|t ts IH]; intros filters; simpl.
  - by rewrite app_nil_r.
  - rewrite IH. unfold pushFilter.
    destruct (generateExclusionFilter t selectedRecords); [by rewrite <- app_assoc | done].
Qed.

(** X6: [generateAllExclusionFilters] gives one filter for each configured
    table that has a selected entry, in the order the tables are configured,
    and none for the other tables. *)
Theorem generateAllExclusionFilters_tables (lookupTables : list string)
    (selectedRecords : list ILookupRecord.t) :
  map entityLogicalName (generateAllExclusionFilters lookupTables selectedRecords)
  = map toLowerCase (List.filter (hasSelected selectedRecords) lookupTables).
Proof.
  unfold generateAllExclusionFilters. rewrite generateAllExclusionFilters_loop. simpl.
  induction lookupTables as [|t ts IH]; simpl; [done|].
  pose proof (generateExclusionFilter_cases t selectedRecords) as H.
  destruct (generateExclusionFilter t selectedRecords) as [f|].
  - destruct H as [-> Hf]. simpl. rewrite Hf. f_equal. exact IH.
  - rewrite H. exact IH.
Qed.

(** ** [escapeXml] *)

Lemma append_assoc a b c : (a +:+ b) +:+ c = a +:+ (b +:+ c).
Proof. induction a as [|x a IH]; [reflexivity|]. rewrite !append_cons. by rewrite IH. Qed.

Lemma replaceAll_app c by_ s t :
  replaceAll c by_ (s +:+ t) = replaceAll c by_ s +:+ replaceAll c by_ t.
Proof.
  induction s as [|d r IH]; str_simpl; [done|]. rewrite IH.
  destruct (Ascii.eqb d c); [by rewrite append_assoc | by rewrite append_cons].
Qed.

(** The five replacements, in the order the source applies them. *)
Lemma escape_pipeline_char c :
  replaceAll "'" "&apos;"
    (replaceAll dquoteChar "&quot;"
       (replaceAll ">" "&gt;" (replaceAll "<" "&lt;"
          (replaceAll "&" "&amp;" (String c EmptyString)))))
  = escapeChar c.
Proof. by_code_points c. Qed.

Lemma escapeXml_escapeEach str : escapeXml str = escapeEach str.
Proof.
  unfold escapeXml. destruct (isEmpty str) eqn:E; [by apply isEmpty_true in E; subst|].
  clear E. induction str as [|c r IH]; [done|].
  change (String c r) with (String c EmptyString +:+ r).
  rewrite !replaceAll_app, IH, escape_pipeline_char. reflexivity.
Qed.

Lemma escapeEach_app s t : escapeEach (s +:+ t) = escapeEach s +:+ escapeEach t.
Proof.
  induction s as [|c r IH]; str_simpl; [done|]. by rewrite IH, append_assoc.
Qed.

Lemma escapeChar_no_markup c : allChars (fun d => negb (isMarkup d)) (escapeChar c) = true.
Proof. by_code_points c. Qed.

Lemma unescape_escapeChar c t : unescapeXml (escapeChar c +:+ t) = String c (unescapeXml t).
Proof. by_code_points c. Qed.

(** X7: [escapeXml] escapes each character once: replacing the ampersand
    first means the entities written for the other characters are not
    escaped again.  Its result holds none of the characters less-than,
    greater-than, double quote and apostrophe; it distributes over
    concatenation; and decoding the five entities gives the input back, so
    escaping loses nothing. *)
Theorem escapeXml_escapes_once :
  (forall str, escapeXml str = escapeEach str)
  /\ (forall str, allChars (fun c => negb (isMarkup c)) (escapeXml str) = true)
  /\ (forall s t, escapeXml (s +:+ t) = escapeXml s +:+ escapeXml t)
  /\ (forall str, unescapeXml (escapeXml str) = str).
Proof.
  split; [exact escapeXml_escapeEach|]. split; [|split].
  - intros str. rewrite escapeXml_escapeEach.
    induction str as [|c r IH]; simpl; [done|].
    by rewrite allChars_app, escapeChar_no_markup, IH.
  - intros s t. rewrite !escapeXml_escapeEach. apply escapeEach_app.
  - intros str. rewrite escapeXml_escapeEach.
    induction str as [|c r IH]; simpl; [done|]. by rewrite unescape_escapeChar, IH.
Qed.

(** ** [getPluralTableName] *)

Lemma lastChar_append s t : t <> EmptyString -> lastChar (s +:+ t) = lastChar t.
Proof.
  intros Ht. unfold lastChar. induction s as [|c r IH]; str_simpl; [done|].
  destruct (r +:+ t) as [|d u] eqn:E.
  - destruct r; [by rewrite append_nil in E | by rewrite append_cons in E].
  - rewrite <- IH. by destruct (lastTwo (String d u)) as [[b|] l].
Qed.

Lemma irregularPlurals_last singular plural :
  irregularPlurals !! singular = Some plural ->
  lastChar plural = Some "s"%char /\ isInherited singular = false.
Proof.
  unfold irregularPlurals. intros H. apply elem_of_list_to_map_2 in H.
  repeat (apply elem_of_cons in H as [H|H]; [by injection H as -> ->|]).
  by apply elem_of_nil in H.
Qed.

Lemma isInherited_In key : isInherited key = true <-> In key inheritedMembers.
Proof.
  unfold isInherited. rewrite existsb_exists. split.
  - intros (x & Hin & Heq). apply String.eqb_eq in Heq. by subst.
  - intros Hin. exists key. split; [done|]. apply String.eqb_refl.
Qed.

(** X8: [getPluralTableName] gives a name that ends in the letter s (so it
    is never empty) for every table name but the two that, lower-cased,
    spell a member every object literal inherits: for [constructor] and
    [__proto__] the lookup among the irregular plurals finds that member, and
    it is returned in place of a name.  The letter case of the table name
    does not matter. *)
Theorem getPluralTableName_ends_in_s (tableName : string) :
  match getPluralTableName tableName with
  | PluralName name =>
      lastChar name = Some "s"%char /\ ~ In (toLowerCase tableName) inheritedMembers
  | InheritedMember key => key = toLowerCase tableName /\ In key inheritedMembers
  end
  /\ getPluralTableName (toLowerCase tableName) = getPluralTableName tableName.
Proof.
  split.
  - unfold getPluralTableName.
    assert (lastChar
              (if endsInSibilant (toLowerCase tableName) then toLowerCase tableName +:+ "es"
               else if endsInConsonantY (toLowerCase tableName)
                    then dropLast (toLowerCase tableName) +:+ "ies"
                    else toLowerCase tableName +:+ "s") = Some "s"%char) as Hregular.
    { destruct (endsInSibilant _); [by rewrite lastChar_append|].
      destruct (endsInConsonantY _); by rewrite lastChar_append. }
    destruct (irregularPlurals !! toLowerCase tableName) as [plural|] eqn:E.
    + destruct (irregularPlurals_last _ _ E) as [Hlast Hown].
      split; [by destruct (isEmpty plural)|].
      rewrite <- isInherited_In, Hown. done.
    + destruct (isInherited (toLowerCase tableName)) eqn:Hin.
      * split; [done|]. by apply isInherited_In.
      * split; [exact Hregular|]. rewrite <- isInherited_In, Hin. done.
  - unfold getPluralTableName. by rewrite toLowerCase_idem.
Qed.

End CodecRestFacts.

(** * Further facts about the resolver, the icons and navigation *)
Module HostFacts.
Import Js Codec Resolver Host Spec SpecRest JsFacts CodecFacts ResolverFacts.

Lemma partition_lengths {A B : Type} (f : A -> option B) (l : list A) :
  (length (omap f l) + length (List.filter (fun x => negb (bool_decide (is_Some (f x)))) l)
   = length l)%nat.
Proof.
  induction l as [|x l IH]; simpl; [done|].
  destruct (f x) as [y|] eqn:E; simpl; unfold omap in IH; lia.
Qed.

Lemma resolved_entries webAPI parsedRecords :
  map ILookupRecord.id (omap (recordOf webAPI) parsedRecords)
  `sublist_of` map (fun p => normalizeGuid (IParsedRecord.id p)) parsedRecords
  /\ Forall (fun r => Control.notLoading r = true
                      /\ toLowerCase (ILookupRecord.table r) = ILookupRecord.table r)
            (omap (recordOf webAPI) parsedRecords).
Proof.
  induction parsedRecords as [|p ps [IH1 IH2]]; simpl; [by split; constructor|].
  destruct (recordOf webAPI p) as [r|] eqn:E; simpl.
  - destruct (recordOf_fields _ _ _ E) as (Hid & Htable & Hload). split.
    + rewrite Hid. by constructor.
    + constructor; [|done]. unfold Control.notLoading. rewrite Hload, Htable.
      split; [done | apply toLowerCase_idem].
  - split; [by constructor | done].
Qed.

Lemma firstRaised_Some webAPI parsedRecords error :
  firstRaised webAPI parsedRecords = Some error ->
  exists parsed,
    In parsed parsedRecords
    /\ snd (retrieveRecord webAPI (IParsedRecord.table parsed) (IParsedRecord.id parsed))
       = Throw error.
Proof.
  induction parsedRecords as [|p ps IH]; [done|]. cbn [firstRaised].
  destruct (raised webAPI p) as [e|] eqn:E.
  - intros [= ->]. exists p. split; [by left | by apply retrieveRecord_raised].
  - intros H. destruct (IH H) as (parsed & Hin & Hthrow). exists parsed. split; [by right|done].
Qed.

Lemma firstRaised_None webAPI parsedRecords :
  firstRaised webAPI parsedRecords = None ->
  Forall (fun parsed =>
            snd (retrieveRecord webAPI (IParsedRecord.table parsed) (IParsedRecord.id parsed))
            = Return (recordOf webAPI parsed)) parsedRecords.
Proof.
  induction parsedRecords as [|p ps IH]; [constructor|]. cbn [firstRaised].
  destruct (raised webAPI p) as [e|] eqn:E; [done|].
  intros H. constructor; [by apply retrieveRecord_recordOf | by apply IH].
Qed.

(** A lookup raises only on a rejection with an ill-typed message. *)
Lemma raised_illTyped webAPI parsed error :
  raised webAPI parsed = Some error ->
  exists tableName recordId options rejection,
    webAPI tableName recordId options = Throw rejection
    /\ failureClass rejection = IllTypedMessage.
Proof.
  unfold raised. intros H.
  destruct (webAPI (IParsedRecord.table parsed) (normalizeGuid (IParsedRecord.id parsed))
              ("?$select=" +:+ fieldText (getPrimaryNameField (IParsedRecord.table parsed))))
    as [result|rejection] eqn:Hasked.
  - destruct (proj2 (retrieveRecord_failures webAPI (IParsedRecord.table parsed)
                       (IParsedRecord.id parsed)) result Hasked) as [record Hrec].
    by rewrite Hrec in H.
  - exists (IParsedRecord.table parsed), (normalizeGuid (IParsedRecord.id parsed)),
      ("?$select=" +:+ fieldText (getPrimaryNameField (IParsedRecord.table parsed))), rejection.
    split; [exact Hasked|].
    rewrite (proj1 (retrieveRecord_failures webAPI (IParsedRecord.table parsed)
                      (IParsedRecord.id parsed)) rejection Hasked) in H.
    by destruct (failureClass rejection).
Qed.

(** X9: [retrieveAllRecords] rejects exactly when one of its lookups raises,
    and then with what that lookup raised; a store whose rejections all carry
    a message that can be read (absent, a string, or a value that answers
    [includes]) makes no lookup raise.  When it completes, it has sorted
    every reference into exactly one of its two lists: the resolved entries
    and the not-found identifiers together are as many as the references,
    and [hasDeletedRecords] is set exactly when some reference is missing
    from the resolved entries.  The resolved entries come in the order of the
    references, each under the normalized identifier of its reference, with
    a lower-case type and not pending; the not-found identifiers come in the
    order of the references too. *)
Theorem retrieveAllRecords_partitions (webAPI : WebApi) (parsedRecords : list IParsedRecord.t) :
  match snd (retrieveAllRecords webAPI parsedRecords) with
  | Throw error =>
      exists parsed,
        In parsed parsedRecords
        /\ snd (retrieveRecord webAPI (IParsedRecord.table parsed) (IParsedRecord.id parsed))
           = Throw error
  | Return result =>
      Forall (fun parsed =>
                exists record,
                  snd (retrieveRecord webAPI (IParsedRecord.table parsed)
                         (IParsedRecord.id parsed)) = Return record) parsedRecords
      /\ (length (validRecords result) + length (deletedRecordIds result)
          = length parsedRecords)%nat
      /\ hasDeletedRecords result
         = negb (length (validRecords result) =? length parsedRecords)%nat
      /\ map ILookupRecord.id (validRecords result)
         `sublist_of` map (fun p => normalizeGuid (IParsedRecord.id p)) parsedRecords
      /\ deletedRecordIds result `sublist_of` map IParsedRecord.id parsedRecords
      /\ Forall (fun r => Control.notLoading r = true
                          /\ toLowerCase (ILookupRecord.table r) = ILookupRecord.table r)
                (validRecords result)
  end
  /\ ((forall tableName recordId options rejection,
         webAPI tableName recordId options = Throw rejection ->
         failureClass rejection <> IllTypedMessage) ->
      exists result, snd (retrieveAllRecords webAPI parsedRecords) = Return result).
Proof.
  split.
  - destruct (snd (retrieveAllRecords webAPI parsedRecords)) as [result|error] eqn:Hret.
    + apply retrieveAllRecords_valid in Hret as (Hnone & Hv & Hd & Hh).
      split.
      { eapply List.Forall_impl; [|by apply firstRaised_None]. intros p Hp. eexists. exact Hp. }
      pose proof (partition_lengths (recordOf webAPI) parsedRecords) as Hlen.
      fold (notFound webAPI parsedRecords) in Hlen.
      rewrite <- Hv in Hlen.
      assert (length (deletedRecordIds result) = length (notFound webAPI parsedRecords)) as Hdl
        by (by rewrite Hd, length_map).
      rewrite <- Hdl in Hlen.
      destruct (resolved_entries webAPI parsedRecords) as [Hsub Hall].
      rewrite <- Hv in Hsub, Hall.
      split; [exact Hlen|]. split; [|split; [exact Hsub|split; [|exact Hall]]].
      * rewrite Hh.
        destruct (Nat.eqb_spec (length (validRecords result)) (length parsedRecords));
          destruct (Nat.ltb_spec 0 (length (deletedRecordIds result))); simpl; (done || lia).
      * rewrite Hd. apply ControlFacts.sublist_map, ControlFacts.sublist_List_filter.
    + rewrite retrieveAllRecords_outcome in Hret.
      destruct (firstRaised webAPI parsedRecords) as [e|] eqn:Hfirst; [|done].
      injection Hret as ->. by apply firstRaised_Some.
  - intros Hstore. rewrite retrieveAllRecords_outcome.
    destruct (firstRaised webAPI parsedRecords) as [e|] eqn:Hfirst; [|by eexists].
    exfalso. clear -Hstore Hfirst.
    induction parsedRecords as [|p ps IH]; [done|]. cbn [firstRaised] in Hfirst.
    destruct (raised webAPI p) as [e'|] eqn:E; [|by apply IH].
    destruct (raised_illTyped _ _ _ E) as (t & i & o & rejection & Hasked & Hclass).
    by apply (Hstore t i o rejection).
Qed.

Lemma retrieveAllRecords_partitions_witness :
  let store : WebApi :=
    fun table _ _ =>
      if String.eqb table "contact" then Return (Some {["fullname" := "Jane Doe"]})
      else Throw (ErrObject (Some (CodeNum 500)) None (Some (MsgString "Server busy"))) in
  let refs := [IParsedRecord.mk "11111111-1111-1111-1111-111111111111" "contact";
               IParsedRecord.mk "22222222-2222-2222-2222-222222222222" "account"] in
  exists result, snd (retrieveAllRecords store refs) = Return result.
Proof.
  intros store refs. apply (proj2 (retrieveAllRecords_partitions store refs)).
  intros tableName recordId options rejection. unfold store.
  destruct (String.eqb tableName "contact"); [discriminate|].
  intros [= <-]. vm_compute. discriminate.
Defined.

(** ** Table icons *)







(** ** Navigation *)

Lemma navStep_debounced e n : debounced n -> debounced (navStep e n).
Proof.
  unfold debounced. destruct n as [flag forms pending]. simpl.
  intros [[-> Hone]|[-> Hnone]]; destruct e as [modal record|outcome| ]; simpl.
  - by left.
  - destruct forms as [|f fs]; [by left|].
    unfold handleNavigateToRecord_resume, openRecordForm. simpl in *.
    destruct outcome; simpl; left; (split; [done|lia]).
  - destruct pending as [|k]; [by left|]. simpl in *. right. split; [done|lia].
  - left. split; [done|]. rewrite length_app. simpl.
    destruct forms; simpl in *; lia.
  - destruct forms as [|f fs]; [by right|]. simpl in Hnone. lia.
  - destruct pending as [|k]; [by right|]. lia.
Qed.

(** X11: the navigation debounce holds through any sequence of badge
    clicks, form calls settling and release timers firing: the flag is set
    exactly while one form call or one release timer is outstanding, so no
    second form is ever opened while the first is open or its release timer
    is pending; a failed form call releases the flag like a successful one. *)
Theorem navigation_is_debounced (events : list NavEvent) :
  debounced (navRun events idle)
  /\ (length (formsOpen (navRun events idle)) <= 1)%nat.
Proof.
  assert (debounced (navRun events idle)) as H.
  { unfold navRun. generalize idle, (or_intror (conj eq_refl eq_refl) : debounced idle).
    induction events as [|e es IH]; intros n Hn; simpl; [done|].
    by apply IH, navStep_debounced. }
  split; [exact H|]. destruct H as [[_ H]|[_ H]]; lia.
Qed.

End HostFacts.

(** * Further facts about the control *)
Module ControlRestFacts.
Import Js Codec CodecRest Resolver Control ControlRest Spec SpecRest.
Import JsFacts CodecFacts ResolverFacts ControlFacts CodecRestFacts HostFacts.

(** ** The picker *)

(** What the cancellation test raises is a TypeError, which is itself no
    cancellation. *)
Lemma isUserCancelledError_raises error raised :
  isUserCancelledError error = Throw raised ->
  isUserCancelledError raised = Return false.
Proof.
  destruct error as [code errorCode [[m|answer [cancelled|]]|]|]; simpl; try done.
  - by destruct (_ || _)%bool.
  - by destruct (_ || _)%bool.
  - destruct (_ || _)%bool; [done|]. by intros [= <-].
  - by destruct (_ || _)%bool.
Qed.

(** X12: a picker interaction that is cancelled, or returns nothing, leaves
    the control exactly as it was; any other picker failure (a failure of
    the cancellation test on an ill-typed message included) sets the generic
    message and bumps the version, and touches neither the selection nor the
    values written to the host; only a non-empty result reaches
    [processLookupResults]. *)
Theorem picker_outcomes (s : State) (allowMultiSelect : bool)
    (lookupObjects : Completion (option (list LookupValue.t))) :
  let s' := handleLookupClick_resume s allowMultiSelect (openLookupDialog lookupObjects) in
  match lookupObjects with
  | Return (Some (first :: rest)) => s' = processLookupResults s (first :: rest) allowMultiSelect
  | Return _ => s' = s
  | Throw error =>
      match isUserCancelledError error with
      | Return true => s' = s
      | _ => s' = triggerRerender (set_errorMessage (Some "Error opening lookup dialog") s)
             /\ selectedRecords s' = selectedRecords s
             /\ boundFieldValue s' = boundFieldValue s
             /\ lastBoundValue s' = lastBoundValue s
             /\ outputChanges s' = outputChanges s
      end
  end.
Proof.
  destruct lookupObjects as [[[|first rest]|]|error]; simpl; try done.
  destruct (isUserCancelledError error) as [[|]|raised] eqn:E; simpl; [done| |].
  - by rewrite E.
  - by rewrite (isUserCancelledError_raises _ _ E).
Qed.

(** X13: in single-select mode a pick replaces the selection, whatever it
    was, by the first record picked: the selection is that one entry under
    its normalized identifier and lower-case type, the bound value written to
    the host is that identifier and type, and it is recorded as the last
    observed value. *)
Theorem single_select_replaces (s : State) (first : LookupValue.t) (rest : list LookupValue.t) :
  let s' := processLookupResults s (first :: rest) false in
  selectedRecords s' = [toRecord (tableIconCache s) first]
  /\ boundFieldValue s'
     = normalizeGuid (LookupValue.id first) +:+ ":" +:+ toLowerCase (LookupValue.entityType first)
  /\ lastBoundValue s' = Some (boundFieldValue s')
  /\ recordNamesValue s' = default "Unnamed Record" (LookupValue.name first)
  /\ outputChanges s' = S (outputChanges s).
Proof.
  unfold processLookupResults, serializeRecordNames, serializeToBoundValue. fields. simpl.
  by rewrite normalizeGuid_idem, toLowerCase_idem.
Qed.

(** Being handed back the value recorded as last observed starts no load. *)
Lemma echo_is_ignored (s : State) (ctx : Context) :
  isInitialized s = true ->
  lastBoundValue s = Some (boundFieldValue s) ->
  boundValueOf ctx = boundFieldValue s ->
  fst (updateView s ctx) = (set_context ctx s, None).
Proof.
  intros Hinit Hlast Hctx. unfold updateView. fields. rewrite Hinit, Hlast, Hctx.
  simpl. by rewrite String.eqb_refl.
Qed.

Lemma mutations_record_their_write s :
  (forall recordId,
      lastBoundValue (handleRemoveRecord s recordId)
      = Some (boundFieldValue (handleRemoveRecord s recordId))
      /\ isInitialized (handleRemoveRecord s recordId) = isInitialized s)
  /\ (forall results multi,
        lastBoundValue (processLookupResults s results multi)
        = Some (boundFieldValue (processLookupResults s results multi))
        /\ isInitialized (processLookupResults s results multi) = isInitialized s).
Proof.
  split.
  - intros recordId. unfold handleRemoveRecord. fields. done.
  - intros results multi. unfold processLookupResults. destruct multi; branches; fields; done.
Qed.

(** X14: the control does not reload what it wrote itself.  After a
    removal or an add on an initialized control, being handed back the bound
    value it has just written starts no load and changes nothing but the
    stored context. *)
Theorem own_write_is_not_reloaded (s : State) (ctx : Context) :
  isInitialized s = true ->
  (forall recordId,
      boundValueOf ctx = boundFieldValue (handleRemoveRecord s recordId) ->
      fst (updateView (handleRemoveRecord s recordId) ctx)
      = (set_context ctx (handleRemoveRecord s recordId), None))
  /\ (forall results multi,
        boundValueOf ctx = boundFieldValue (processLookupResults s results multi) ->
        fst (updateView (processLookupResults s results multi) ctx)
        = (set_context ctx (processLookupResults s results multi), None)).
Proof.
  intros Hinit. destruct (mutations_record_their_write s) as [Hremove Hadd]. split.
  - intros recordId Hctx. destruct (Hremove recordId) as [Hlast Hi].
    apply echo_is_ignored; [by rewrite Hi | done | done].
  - intros results multi Hctx. destruct (Hadd results multi) as [Hlast Hi].
    apply echo_is_ignored; [by rewrite Hi | done | done].
Qed.

Lemma own_write_is_not_reloaded_witness :
  let entry := ILookupRecord.mk "11111111-1111-1111-1111-111111111111" "contact" "Jane" None None in
  let other := ILookupRecord.mk "22222222-2222-2222-2222-222222222222" "account" "Acme" None None in
  let s := set_isInitialized true (set_selectedRecords [entry; other] initial) in
  let ctx := Build_Context (Some "11111111-1111-1111-1111-111111111111:contact") None None None in
  fst (updateView (handleRemoveRecord s "{22222222-2222-2222-2222-222222222222}") ctx)
  = (set_context ctx (handleRemoveRecord s "{22222222-2222-2222-2222-222222222222}"), None).
Proof.
  intros entry other s ctx.
  apply (proj1 (own_write_is_not_reloaded s ctx eq_refl)). vm_compute. reflexivity.
Defined.

(** ** Invariants of the reachable states *)

Lemma run_app events1 events2 w : run (events1 ++ events2) w = run events2 (run events1 w).
Proof. unfold run. apply fold_left_app. Qed.

(** Every way a resumed load ends clears the flag. *)
Lemma loadInitialData_resume_idle s p outcome :
  isLoadingInProgress (fst (loadInitialData_resume s p outcome)) = false.
Proof.
  unfold loadInitialData_resume. destruct outcome as [result|error]; [|done].
  destruct (negb _); [done|]. by destruct (hasDeletedRecords result).
Qed.

(** A load asked of an idle control either suspends on the store or leaves
    the control idle. *)
Lemma loadInitialData_busy s ctx :
  isLoadingInProgress s = false ->
  isLoadingInProgress (fst (loadInitialData s ctx)) = false
  \/ is_Some (snd (loadInitialData s ctx)).
Proof.
  intros Hidle. unfold loadInitialData. rewrite Hidle.
  branches; fields; (by left) || (right; by eexists).
Qed.

Lemma loadInitialData_while_busy s ctx :
  isLoadingInProgress s = true -> loadInitialData s ctx = (s, None).
Proof. intros H. unfold loadInitialData. by rewrite H. Qed.

Lemma processLookupResults_busy s results multi :
  isLoadingInProgress (processLookupResults s results multi) = isLoadingInProgress s.
Proof. unfold processLookupResults. destruct multi; branches; fields; done. Qed.

Lemma handleLookupClick_busy s :
  isLoadingInProgress (fst (handleLookupClick s)) = isLoadingInProgress s.
Proof. unfold handleLookupClick. branches; fields; done. Qed.

Lemma handleLookupClick_resume_busy s multi outcome :
  isLoadingInProgress (handleLookupClick_resume s multi outcome) = isLoadingInProgress s.
Proof.
  unfold handleLookupClick_resume. destruct outcome as [results|error].
  - destruct (0 <? _)%nat; [apply processLookupResults_busy | done].
  - by destruct (isUserCancelledError error) as [[|]|].
Qed.

Lemma step_busy e w :
  isLoadingInProgress (control w) = false \/ loads w <> [] ->
  isLoadingInProgress (control (step e w)) = false \/ loads (step e w) <> [].
Proof.
  intros Hinv.
  assert (forall (l : list PendingLoad) k, l <> [] -> (l ++ k)%list <> []) as Happ
    by (intros [|? ?] k; done).
  destruct e as [ctx|i webAPI|outcome| |i lookupObjects|recordId| ]; unfold step.
  - unfold updateView. destruct (_ || _)%bool.
    + destruct (isLoadingInProgress (control w)) eqn:Hbusy.
      * rewrite loadInitialData_while_busy by done. fields.
        destruct Hinv as [?|Hl]; [done|]. right. by apply Happ.
      * destruct (loadInitialData_busy (set_context ctx (control w)) ctx Hbusy) as [H|[p H]];
          destruct (loadInitialData _ ctx) as [s' started]; fields; [by left|].
        subst started. right. by destruct (loads w).
    + fields. destruct Hinv as [?|Hl]; [by left|]. right. by apply Happ.
  - destruct (loads w !! i) as [p|]; [|done].
    pose proof (loadInitialData_resume_idle (control w) p
                  (snd (retrieveAllRecords webAPI (parsedRecords p)))) as H.
    destruct (loadInitialData_resume _ _ _) as [s' restarted]. fields. by left.
  - destruct (iconLoads w); [done|]. unfold loadTableIcons_resume.
    destruct outcome; fields; done.
  - pose proof (handleLookupClick_busy (control w)) as H.
    destruct (handleLookupClick (control w)) as [s' opened]. fields. by rewrite H.
  - destruct (dialogs w !! i) as [multi|]; [|done]. fields.
    by rewrite handleLookupClick_resume_busy.
  - unfold handleRemoveRecord. fields. done.
  - fields. by left.
Qed.

(** X15: the loading flag is never left set with nothing to clear it: in
    every state the control can reach, when the flag is set a resolution is
    in flight (and its completion clears the flag). *)
Theorem busy_means_in_flight (events : list Event) :
  isLoadingInProgress (control (run events start)) = false
  \/ loads (run events start) <> [].
Proof.
  induction events as [|e es IH] using rev_ind; [by left|].
  rewrite run_app. simpl. by apply step_busy.
Qed.

(** The converse fails: a load restarted by a stale completion is in
    flight with the flag cleared, because the [finally] block of the
    completing call runs after the restart has set it. *)
Lemma restart_not_busy s p result :
  boundValueOf (context s) <> loadingValue p ->
  isInitialized s = false \/ lastBoundValue s <> Some (boundValueOf (context s)) ->
  parseBoundValue (boundValueOf (context s)) <> [] ->
  isLoadingInProgress (fst (loadInitialData_resume s p (Return result))) = false
  /\ is_Some (snd (loadInitialData_resume s p (Return result))).
Proof.
  intros Hchanged Hlast Hrefs. split; [apply loadInitialData_resume_idle|].
  destruct (loadInitialData_resume_stale s p result Hchanged Hlast) as (_ & -> & _).
  destruct (parseBoundValue _); [done | by eexists].
Qed.

(** X16: when a resolution completes normally and finds a bound value that
    is neither the one it was started for nor the one recorded as last
    observed (no load has been started and no add or removal written since
    that value came), and that value names at least one reference, then a
    load of it is restarted: its placeholders are the selection and its
    resolution is in flight, yet the loading flag reads false, so a lookup
    click made then is not held back by the flag. *)
Theorem restarted_load_reads_idle (w : World) (p : PendingLoad) (rest : list PendingLoad)
    (webAPI : WebApi) (result : IRecordRetrievalResult) :
  loads w = p :: rest ->
  snd (retrieveAllRecords webAPI (parsedRecords p)) = Return result ->
  boundValueOf (context (control w)) <> loadingValue p ->
  lastBoundValue (control w) <> Some (boundValueOf (context (control w))) ->
  parseBoundValue (boundValueOf (context (control w))) <> [] ->
  let w' := step (LoadSettles 0 webAPI) w in
  isLoadingInProgress (control w') = false
  /\ loads w' = (rest ++ [Build_PendingLoad (boundValueOf (context (control w)))
                             (parseBoundValue (boundValueOf (context (control w))))])%list
  /\ selectedRecords (control w')
     = map placeholder (parseBoundValue (boundValueOf (context (control w)))).
Proof.
  intros Hloads Hret Hchanged Hlast Hrefs w'.
  destruct (step_load_settles w p rest webAPI result Hloads Hret) as [Hs Hl].
  destruct (loadInitialData_resume_stale (control w) p result Hchanged (or_intror Hlast))
    as (Hsel & Hpend & _).
  unfold w'. rewrite Hs, Hl, Hpend, Hsel. split; [apply loadInitialData_resume_idle|].
  split; [|done]. by destruct (parseBoundValue _).
Qed.

Lemma restarted_load_reads_idle_witness :
  let ctxA := Build_Context (Some "11111111-1111-1111-1111-111111111111:contact") None None None in
  let ctxB := Build_Context (Some "22222222-2222-2222-2222-222222222222:account") None None None in
  let w := run [UpdateView ctxA; UpdateView ctxB] start in
  let w' := step (LoadSettles 0 (fun _ _ _ => Return None)) w in
  isLoadingInProgress (control w') = false
  /\ loads w'
     = [Build_PendingLoad "22222222-2222-2222-2222-222222222222:account"
          [IParsedRecord.mk "22222222-2222-2222-2222-222222222222" "account"]].
Proof.
  intros ctxA ctxB w w'.
  assert (loads w = [Build_PendingLoad "11111111-1111-1111-1111-111111111111:contact"
                       [IParsedRecord.mk "11111111-1111-1111-1111-111111111111" "contact"]])
    as Hloads by (vm_compute; reflexivity).
  assert (snd (retrieveAllRecords (fun _ _ _ => Return None)
                 [IParsedRecord.mk "11111111-1111-1111-1111-111111111111" "contact"])
          = Return (Build_IRecordRetrievalResult []
                      ["11111111-1111-1111-1111-111111111111"] true))
    as Hret by (vm_compute; reflexivity).
  assert (boundValueOf (context (control w)) <> "11111111-1111-1111-1111-111111111111:contact")
    as Hchanged by (vm_compute; discriminate).
  assert (lastBoundValue (control w) <> Some (boundValueOf (context (control w))))
    as Hlast by (vm_compute; discriminate).
  assert (parseBoundValue (boundValueOf (context (control w))) <> []) as Hrefs
    by (vm_compute; discriminate).
  destruct (restarted_load_reads_idle w _ _ (fun _ _ _ => Return None) _ Hloads Hret Hchanged
              Hlast Hrefs) as (Hflag & Hl & _).
  split; [exact Hflag|]. etransitivity; [exact Hl|]. vm_compute. reflexivity.
Defined.

(** ** The selection is kept in normal form *)

Lemma placeholders_normal raw : Forall normalEntry (map placeholder (parseBoundValue raw)).
Proof.
  rewrite parseBoundValue_parse. apply List.Forall_map.
  eapply List.Forall_impl; [|apply parse_canonical].
  intros p (Hid & Htable & _). split; simpl; [by apply canonical_normal | done].
Qed.

Lemma resolved_normal webAPI parsed : Forall normalEntry (omap (recordOf webAPI) parsed).
Proof.
  induction parsed as [|p ps IH]; simpl; [constructor|].
  destruct (recordOf webAPI p) as [r|] eqn:E; [|exact IH]. constructor; [|exact IH].
  destruct (recordOf_fields _ _ _ E) as (Hid & Htable & _). unfold normalEntry.
  by rewrite Hid, Htable, normalizeGuid_idem, toLowerCase_idem.
Qed.

Lemma Forall_List_filter {A : Type} (P : A -> Prop) (p : A -> bool) (l : list A) :
  Forall P l -> Forall P (List.filter p l).
Proof.
  induction 1 as [|x l Hx _ IH]; simpl; [constructor|]. destruct (p x); [by constructor | done].
Qed.

Lemma loadInitialData_normal s ctx :
  Forall normalEntry (selectedRecords s) ->
  Forall normalEntry (selectedRecords (fst (loadInitialData s ctx))).
Proof.
  intros H. unfold loadInitialData. branches; fields; try done; try constructor.
  apply placeholders_normal.
Qed.

Lemma processLookupResults_normal s results multi :
  Forall normalEntry (selectedRecords s) ->
  Forall normalEntry (selectedRecords (processLookupResults s results multi)).
Proof.
  intros H.
  assert (Forall normalEntry (map (toRecord (tableIconCache s)) results)) as Hnew.
  { apply List.Forall_map, List.Forall_forall. intros v _. unfold normalEntry. simpl.
    by rewrite normalizeGuid_idem, toLowerCase_idem. }
  unfold processLookupResults. destruct multi.
  - branches; fields; try apply Forall_take; apply Forall_app_2;
      by try apply Forall_List_filter.
  - fields. by apply Forall_take.
Qed.

Lemma step_normal e w :
  Forall normalEntry (selectedRecords (control w)) ->
  Forall normalEntry (selectedRecords (control (step e w))).
Proof.
  intros H. destruct e as [ctx|i webAPI|outcome| |i lookupObjects|recordId| ]; unfold step.
  - unfold updateView. destruct (_ || _)%bool; [|by fields].
    pose proof (loadInitialData_normal (set_context ctx (control w)) ctx H) as H'.
    by destruct (loadInitialData _ ctx) as [s' started].
  - destruct (loads w !! i) as [p|]; [|done].
    destruct (snd (retrieveAllRecords webAPI (parsedRecords p))) as [result|error] eqn:Hret;
      [|unfold loadInitialData_resume; fields; constructor].
    apply retrieveAllRecords_valid in Hret as (_ & Hvalid & _).
    pose proof (resolved_normal webAPI (parsedRecords p)) as Hres. rewrite <- Hvalid in Hres.
    unfold loadInitialData_resume. destruct (negb _).
    + pose proof (loadInitialData_normal (set_isLoadingInProgress false (control w))
                    (context (control w)) H) as H'.
      destruct (loadInitialData _ _) as [s' restarted]. by fields.
    + destruct (hasDeletedRecords result); by fields.
  - destruct (iconLoads w); [done|]. unfold loadTableIcons_resume. destruct outcome; by fields.
  - unfold handleLookupClick. branches; by fields.
  - destruct (dialogs w !! i) as [multi|]; [|done]. fields.
    unfold handleLookupClick_resume. destruct (openLookupDialog lookupObjects) as [results|error].
    + destruct (0 <? _)%nat; [by apply processLookupResults_normal | done].
    + destruct (isUserCancelledError error) as [[|]|]; by fields.
  - unfold handleRemoveRecord, removeRecordById. fields. by apply Forall_List_filter.
  - fields. constructor.
Qed.

(** X17: in every state the control can reach, every entry of the
    selection, pending or not, is in normal form: its identifier is already
    normalized (lower case, no braces) and its type is lower case, whatever
    spelling the bound value, the store or the picker used. *)
Theorem selection_in_normal_form (events : list Event) :
  Forall normalEntry (selectedRecords (control (run events start))).
Proof.
  induction events as [|e es IH] using rev_ind; [constructor|].
  rewrite run_app. simpl. by apply step_normal.
Qed.

(** ** The version along a run *)

(** X18: along any sequence of events the version never goes down, and it
    goes up by at most three per event. *)
Theorem stateVersion_along_run (events : list Event) (w : World) :
  (stateVersion (control w) <= stateVersion (control (run events w))
   <= stateVersion (control w) + 3 * Z.of_nat (length events))%Z.
Proof.
  revert w. induction events as [|e es IH]; intros w; [simpl; lia|].
  rewrite run_cons. pose proof (step_version e w). specialize (IH (step e w)).
  rewrite length_cons. lia.
Qed.

(** ** Observations while a load is in flight *)

(** X19: while a load is in flight with the flag set, observing the bound
    value, however often and with whatever values, only replaces the stored
    context: no load is started, no placeholder is touched, the version does
    not move.  Only the newest context is there when the load completes. *)
Theorem observations_coalesce (w : World) (ctxs : list Context) (newest : Context) :
  isInitialized (control w) = true ->
  isLoadingInProgress (control w) = true ->
  let w' := run (map UpdateView (ctxs ++ [newest])) w in
  control w' = set_context newest (control w)
  /\ loads w' = loads w
  /\ stateVersion (control w') = stateVersion (control w)
  /\ selectedRecords (control w') = selectedRecords (control w).
Proof.
  intros Hinit Hbusy w'. destruct (observe_while_loading ctxs newest w Hinit Hbusy) as [Hs Hl].
  fold w' in Hs, Hl. rewrite Hs. by repeat split.
Qed.

Lemma observations_coalesce_witness :
  let ctx (v : string) := Build_Context (Some v) None None None in
  let w := step (UpdateView (ctx "11111111-1111-1111-1111-111111111111:contact")) start in
  loads (run (map UpdateView ([ctx "junk"; ctx ""] ++ [ctx "22222222-2222-2222-2222-222222222222:lead"])) w)
  = loads w.
Proof.
  intros ctx w.
  exact (proj1 (proj2 (observations_coalesce w [ctx "junk"; ctx ""]
                         (ctx "22222222-2222-2222-2222-222222222222:lead") eq_refl eq_refl))).
Defined.

(** ** When the picker is opened *)

(** X20: a lookup click opens the picker exactly when no load holds the
    flag, the selection is below the configured maximum (as [updateView]
    reports it to the component) and at least one lookup table is
    configured.  The click itself never touches the selection or the values
    written to the host, and when the picker is opened the control is left
    as it was, with the multi-select setting read at that moment. *)
Theorem handleLookupClick_gate (s : State) :
  (is_Some (snd (handleLookupClick s))
   <-> isLoadingInProgress s = false
       /\ isAtMaxSelections s (context s) = false
       /\ parseLookupTables (default "" (lookupTables (context s))) <> [])
  /\ selectedRecords (fst (handleLookupClick s)) = selectedRecords s
  /\ boundFieldValue (fst (handleLookupClick s)) = boundFieldValue s
  /\ outputChanges (fst (handleLookupClick s)) = outputChanges s
  /\ match snd (handleLookupClick s) with
     | Some multi =>
         fst (handleLookupClick s) = s
         /\ multi = default false (allowMultiSelect (context s))
     | None => True
     end.
Proof.
  unfold handleLookupClick, isAtMaxSelections.
  destruct (isLoadingInProgress s).
  { simpl. split; [|done]. split; [by intros [? ?] | by intros [? _]]. }
  destruct (positiveMax (maxSelections (context s))) as [m|].
  - destruct (default false (allowMultiSelect (context s))); simpl.
    + destruct (m <=? _)%Z; simpl.
      * split; [|done]. split; [by intros [? ?] | by intros (_ & ? & _)].
      * destruct (parseLookupTables _) as [|t ts]; simpl.
        -- split; [|done]. split; [by intros [? ?] | by intros (_ & _ & ?)].
        -- split; [|done]. split; [done | by eexists].
    + destruct (parseLookupTables _) as [|t ts]; simpl.
      * split; [|done]. split; [by intros [? ?] | by intros (_ & _ & ?)].
      * split; [|done]. split; [done | by eexists].
  - destruct (parseLookupTables _) as [|t ts]; simpl.
    + split; [|done]. split; [by intros [? ?] | by intros (_ & _ & ?)].
    + split; [|done]. split; [done | by eexists].
Qed.

Lemma includesTable_In lookupTables t : includesTable lookupTables t = true -> In t lookupTables.
Proof.
  unfold includesTable. rewrite existsb_exists. intros (x & Hin & Heq).
  apply String.eqb_eq in Heq. by subst.
Qed.

Lemma In_includesTable lookupTables t : In t lookupTables -> includesTable lookupTables t = true.
Proof.
  unfold includesTable. rewrite existsb_exists. intros Hin. exists t. split; [done|].
  apply String.eqb_refl.
Qed.

(** X21: the default table handed to the picker, when there is one, is
    always one of the configured lookup tables: the only table when one is
    configured, otherwise the configured default, trimmed and lower-cased.
    None is handed over only when the tables are not exactly one and the
    configured default, if any, is blank or not among them. *)
Theorem defaultEntityType_is_configured (lookupTables : list string) (configured : option string) :
  match defaultEntityType lookupTables configured with
  | Some table =>
      In table lookupTables
      /\ (lookupTables = [table]
          \/ exists raw, configured = Some raw /\ table = toLowerCase (trim raw))
  | None =>
      length lookupTables <> 1%nat
      /\ forall raw, configured = Some raw ->
                     In (toLowerCase (trim raw)) lookupTables ->
                     toLowerCase (trim raw) = EmptyString
  end.
Proof.
  unfold defaultEntityType.
  destruct lookupTables as [|t [|t' ts]].
  - simpl. rewrite andb_false_r. split; [done|]. by intros raw _ [].
  - simpl. split; [by left|by left].
  - set (l := t :: t' :: ts). set (d := default "" _).
    destruct (negb (isEmpty d) && includesTable l d)%bool eqn:E.
    + apply andb_true_iff in E as [Hd E]. split; [by apply includesTable_In|].
      right. subst d. destruct configured as [raw|]; simpl in *; [by exists raw|done].
    + split; [simpl; lia|]. intros raw -> Hin.
      change d with (toLowerCase (trim raw)) in E.
      apply andb_false_iff in E as [E|E].
      * by destruct (toLowerCase (trim raw)).
      * by rewrite (In_includesTable _ _ Hin) in E.
Qed.

Lemma defaultEntityType_is_configured_witness :
  length ["account"; "contact"] <> 1%nat
  /\ forall raw, Some " Lead " = Some raw ->
                 In (toLowerCase (trim raw)) ["account"; "contact"] ->
                 toLowerCase (trim raw) = EmptyString.
Proof. exact (defaultEntityType_is_configured ["account"; "contact"] (Some " Lead ")). Defined.

(** ** What a completed load hands to the host *)

Lemma resolved_not_loading webAPI parsed :
  List.filter notLoading (omap (recordOf webAPI) parsed) = omap (recordOf webAPI) parsed.
Proof.
  destruct (resolved_entries webAPI parsed) as [_ H].
  induction H as [|r l [Hr _] _ IH]; simpl; [done|]. rewrite Hr. f_equal. exact IH.
Qed.

(** X22: when a resolution ends and the bound value is still the one it
    was started for, the load leaves the list of suspended loads and the flag
    is cleared.  If the resolution completed, the selection becomes the
    resolved references in their order; the outputs report one name per
    resolved reference, joined by semicolons, and their count; and the host
    is notified, with the serialized resolved entries as the new bound value
    (also recorded as last observed), exactly when some reference was not
    resolved.  If the resolution failed, the selection is emptied and the
    refresh message set; the outputs report no name and a count of zero, the
    bound value written to the host stays as it was and the host is not
    notified. *)
Theorem completed_load_outputs (w : World) (p : PendingLoad) (rest : list PendingLoad)
    (webAPI : WebApi) :
  loads w = p :: rest ->
  boundValueOf (context (control w)) = loadingValue p ->
  let resolved := omap (recordOf webAPI) (parsedRecords p) in
  let complete := (length resolved =? length (parsedRecords p))%nat in
  let w' := step (LoadSettles 0 webAPI) w in
  loads w' = rest
  /\ isLoadingInProgress (control w') = false
  /\ match snd (retrieveAllRecords webAPI (parsedRecords p)) with
     | Return _ =>
         selectedRecords (control w') = resolved
         /\ IOutputs.selectionCount (getOutputs (control w')) = length resolved
         /\ IOutputs.recordNamesOutput (getOutputs (control w'))
            = join ";" (map ILookupRecord.name resolved)
         /\ (if complete
             then outputChanges (control w') = outputChanges (control w)
                  /\ boundFieldValue (control w') = boundFieldValue (control w)
                  /\ lastBoundValue (control w') = lastBoundValue (control w)
             else outputChanges (control w') = S (outputChanges (control w))
                  /\ IOutputs.boundField (getOutputs (control w'))
                     = serializeToBoundValue resolved
                  /\ lastBoundValue (control w') = Some (serializeToBoundValue resolved))
     | Throw _ =>
         selectedRecords (control w') = []
         /\ errorMessage (control w') = Some "Error loading records. Please refresh."
         /\ IOutputs.selectionCount (getOutputs (control w')) = 0%nat
         /\ IOutputs.recordNamesOutput (getOutputs (control w')) = ""
         /\ outputChanges (control w') = outputChanges (control w)
         /\ boundFieldValue (control w') = boundFieldValue (control w)
         /\ lastBoundValue (control w') = lastBoundValue (control w)
     end.
Proof.
  intros Hloads Hsame resolved complete w'.
  destruct (snd (retrieveAllRecords webAPI (parsedRecords p))) as [result|error] eqn:Hret.
  2:{ unfold w', step. rewrite Hloads. simpl lookup. cbv iota. rewrite Hret.
      unfold loadInitialData_resume, getOutputs. fields. simpl. by rewrite app_nil_r. }
  destruct (retrieveAllRecords_valid _ _ _ Hret) as (_ & Hv & Hd & Hh).
  destruct (step_load_settles w p rest webAPI result Hloads Hret) as [Hs Hl].
  fold w' in Hs, Hl.
  assert (hasDeletedRecords result = negb complete) as Hdel.
  { rewrite Hh. unfold complete, resolved.
    pose proof (partition_lengths (recordOf webAPI) (parsedRecords p)) as Hlen.
    rewrite Hd, length_map. unfold notFound.
    destruct (Nat.eqb_spec (length (omap (recordOf webAPI) (parsedRecords p)))
                (length (parsedRecords p)));
      destruct (Nat.ltb_spec 0 (length (List.filter
                  (fun x => negb (bool_decide (is_Some (recordOf webAPI x))))
                  (parsedRecords p)))); simpl; (done || lia). }
  assert (serializeRecordNames (set_selectedRecords resolved (control w))
          = join ";" (map ILookupRecord.name resolved)) as Hnames.
  { unfold serializeRecordNames. fields. unfold resolved at 1 2.
    rewrite resolved_not_loading. fold resolved. by destruct resolved. }
  rewrite Hl, Hs. unfold getOutputs, loadInitialData_resume.
  rewrite Hsame, String.eqb_refl, Hdel, Hv. fold resolved. simpl negb. cbv iota.
  destruct complete; simpl negb; cbv iota; fields; rewrite ?Hnames;
    unfold resolved at 1; rewrite ?resolved_not_loading; fold resolved;
    rewrite ?app_nil_r; repeat split; try done.
  all: unfold resolved; by rewrite resolved_not_loading.
Qed.

Lemma completed_load_outputs_witness :
  let value := "11111111-1111-1111-1111-111111111111:contact;22222222-2222-2222-2222-222222222222:account" in
  let store : WebApi :=
    fun table _ _ =>
      if String.eqb table "contact" then Return (Some {["fullname" := "Jane Doe"]})
      else Throw (ErrObject (Some (CodeNum 404)) None None) in
  let w := step (UpdateView (Build_Context (Some value) None None None)) start in
  let w' := step (LoadSettles 0 store) w in
  IOutputs.boundField (getOutputs (control w')) = "11111111-1111-1111-1111-111111111111:contact"
  /\ IOutputs.recordNamesOutput (getOutputs (control w')) = "Jane Doe"
  /\ IOutputs.selectionCount (getOutputs (control w')) = 1%nat.
Proof.
  intros value store w w'.
  assert (loads w = [Build_PendingLoad value (parseBoundValue value)]) as Hloads
    by (vm_compute; reflexivity).
  assert (firstRaised store (parseBoundValue value) = None) as Hnone
    by (vm_compute; reflexivity).
  destruct (retrieveAllRecords_returns store (parseBoundValue value) Hnone)
    as (result & Hret & _).
  pose proof (completed_load_outputs w _ [] store Hloads eq_refl) as H.
  cbv zeta in H. fold w' in H. cbn [parsedRecords] in H. rewrite Hret in H.
  destruct H as (_ & _ & _ & Hcount & Hnames & Hnotify).
  assert ((length (omap (recordOf store) (parseBoundValue value))
           =? length (parseBoundValue value))%nat = false) as E by (vm_compute; reflexivity).
  rewrite E in Hnotify. destruct Hnotify as (_ & Hbound & _).
  split; [etransitivity; [exact Hbound|]; vm_compute; reflexivity|].
  split; [etransitivity; [exact Hnames|]; vm_compute; reflexivity|].
  etransitivity; [exact Hcount|]. vm_compute. reflexivity.
Defined.

End ControlRestFacts.
